(** * LinkClaws: the LinkedIn OAuth verification flow

    A shallow embedding of [convex/lib/linkedin.ts] (state token and
    authorization URL) and of [convex/linkedinAuth.ts] (the start, validate,
    complete, orchestrate and status handlers), with the properties of the
    flow proved about them.

    Conventions.
    - A JavaScript string is a Rocq [string], read as its UTF-8 bytes.
    - Timestamps ([Date.now()], [expiresAt], ...) and invite balances are
      integral JavaScript numbers, modelled as [Z].
    - An optional field is an [option]; a JavaScript truthiness test
      [if (x)] is written with [truthy_number] or [truthy_string], so that
      [0] and the empty string stay falsy, as they are in the source.
    - A Convex table read through an index is a list in index order, which
      for rows with equal index key is creation order; documents addressed
      by identifier only (the agents) are a [gmap]. *)

From Stdlib Require Import ZArith String Ascii.
From Stdlib.Strings Require Import Byte.
From stdpp Require Import base decidable option list gmap strings pretty.

Local Open Scope Z_scope.
Local Open Scope string_scope.

(** ** The JavaScript side: exceptions and asynchronous calls *)
Module js.

(** What a [throw] carries, as far as [catch (error)] tells it apart:
    [error instanceof Error] with its [message], or any other value. *)
Inductive Thrown :=
  | ThrownError (message : string)
  | ThrownOther.

(** How a call or an awaited promise ends. *)
Inductive Outcome (A : Type) :=
  | Returned (a : A)
  | Threw (t : Thrown).
Arguments Returned {A} a.
Arguments Threw {A} t.

(** An async function over a world [W] that it may change before it
    returns or throws. *)
Definition Async (W A : Type) : Type := W → Outcome A * W.

#[global] Instance Async_ret {W} : MRet (Async W) := λ A a w, (Returned a, w).
#[global] Instance Async_bind {W} : MBind (Async W) :=
  λ A B f m w,
    match m w with
    | (Returned a, w') => f a w'
    | (Threw t, w') => (Threw t, w')
    end.

(** [throw t] *)
Definition throw {W A} (t : Thrown) : Async W A := λ w, (Threw t, w).

(** Awaiting something that has already ended as the outcome [o]. *)
Definition settle {W A} (o : Outcome A) : Async W A := λ w, (o, w).

(** [try { body } catch (error) { handler(error) }] *)
Definition try_catch {W A} (body : Async W A) (handler : Thrown → Async W A)
  : Async W A :=
  λ w,
    match body w with
    | (Returned a, w') => (Returned a, w')
    | (Threw t, w') => handler t w'
    end.

(** The part of a fetch [Response] that the code uses; [text()] and
    [json()] are promises and may reject. The body parsed by [json()] is
    read at the type [A] that the source casts it to; the cast checks
    nothing, and [A] says which members may be missing. *)
Record Response (A : Type) := {
  ok : bool;
  status : N;
  text : Outcome string;
  json : Outcome A;
}.
Arguments ok {A} r.
Arguments status {A} r.
Arguments text {A} r.
Arguments json {A} r.

End js.

(** ** convex/lib/linkedin.ts *)
Module linkedin.

Definition LINKEDIN_AUTH_URL : string :=
  "https://www.linkedin.com/oauth/v2/authorization".
Definition LINKEDIN_TOKEN_URL : string :=
  "https://www.linkedin.com/oauth/v2/accessToken".
Definition LINKEDIN_USERINFO_URL : string :=
  "https://api.linkedin.com/v2/userinfo".

Definition LINKEDIN_SCOPES : list string := ["openid"; "profile"; "email"].

(** [15 * 60 * 1000] milliseconds. *)
Definition STATE_EXPIRATION_MS : Z := 15 * 60 * 1000.

(** [String.prototype.charAt]: the one-character string at [i], the empty
    string when [i] is out of range. *)
Definition charAt (s : string) (i : nat) : string :=
  match String.get i s with
  | Some c => String c EmptyString
  | None => EmptyString
  end.

(** [Array.prototype.join]. *)
Definition join (sep : string) (l : list string) : string :=
  String.concat sep l.

(** The alphabet of [generateOAuthState]. *)
Definition chars : string :=
  "ABCDEFGHIJKLMNOPQRSTUVWXYZabcdefghijklmnopqrstuvwxyz0123456789".

(** [randomValues[i]] of the [Uint8Array]; the array has 32 entries and the
    loop stays below 32, so the default is never used on the source's
    buffer. *)
Definition uint8_at (randomValues : list byte) (i : nat) : nat :=
  default 0%nat ((λ b, N.to_nat (Byte.to_N b)) <$> randomValues !! i).

(** [generateOAuthState], with the 32 bytes that [crypto.getRandomValues]
    wrote as an argument: the loop [for (i = 0; i < 32; i++)] appends
    [chars.charAt(randomValues[i] % chars.length)] to [result]. *)
Definition generateOAuthState (randomValues : list byte) : string :=
  foldl (λ result i,
           result +:+ charAt chars (uint8_at randomValues i `mod` String.length chars)%nat)
        EmptyString (seq 0 32).

(** *** [URLSearchParams.prototype.toString]

    The application/x-www-form-urlencoded serializer of the URL standard:
    a space becomes [+]; ASCII letters and digits and [* - . _] stay; every
    other byte becomes [%XX] with upper-case hexadecimal digits. *)
Definition is_upper (c : ascii) : bool :=
  let n := nat_of_ascii c in Nat.leb 65 n && Nat.leb n 90.
Definition is_lower (c : ascii) : bool :=
  let n := nat_of_ascii c in Nat.leb 97 n && Nat.leb n 122.
Definition is_digit (c : ascii) : bool :=
  let n := nat_of_ascii c in Nat.leb 48 n && Nat.leb n 57.
Definition is_alnum (c : ascii) : bool :=
  is_upper c || is_lower c || is_digit c.

Definition urlencoded_keeps (c : ascii) : bool :=
  is_alnum c
  || Ascii.eqb c "*" || Ascii.eqb c "-" || Ascii.eqb c "." || Ascii.eqb c "_".

Definition hex_digit (n : nat) : string := charAt "0123456789ABCDEF" n.

Definition percent_encode_byte (c : ascii) : string :=
  let n := nat_of_ascii c in
  "%" +:+ hex_digit (n / 16) +:+ hex_digit (n `mod` 16).

Definition urlencode_byte (c : ascii) : string :=
  if Ascii.eqb c " " then "+"
  else if urlencoded_keeps c then String c EmptyString
  else percent_encode_byte c.

Fixpoint urlencode (s : string) : string :=
  match s with
  | EmptyString => EmptyString
  | String c s' => urlencode_byte c +:+ urlencode s'
  end.

Definition URLSearchParams_toString (params : list (string * string)) : string :=
  join "&" ((λ kv, urlencode kv.1 +:+ "=" +:+ urlencode kv.2) <$> params).

(** [buildLinkedInAuthUrl]: the object literal's properties in their order. *)
Definition buildLinkedInAuthUrl (clientId redirectUri state : string) : string :=
  let params :=
    [ ("response_type", "code");
      ("client_id", clientId);
      ("redirect_uri", redirectUri);
      ("state", state);
      ("scope", join " " LINKEDIN_SCOPES) ] in
  LINKEDIN_AUTH_URL +:+ "?" +:+ URLSearchParams_toString params.

(** *** The token exchange client *)

(** The token body, as the interface declares it. It is used only inside
    the [try] of the action, to write [access_token] into the
    [Authorization] header of the second request. *)
Record LinkedInTokenResponse := {
  access_token : string;
  expires_in : Z;
  scope : option string;
  token_type : option string;
}.

(** The userinfo body. [response.json() as Promise<LinkedInProfile>] is an
    unchecked cast: the parsed body is whatever the provider sent. Of its
    members the code reads [sub] and [name] only, and each of them is a
    string or not one (absent, or a value of another type); a body that is
    not an object at all has neither. The members that the code never
    reads are kept as the interface declares them. *)
Record LinkedInProfile := {
  sub : option string;
  name : option string;
  given_name : string;
  family_name : string;
  email : string;
  email_verified : bool;
  picture : option string;
  locale : option (string * string);
}.

Section network.
Import js.
Context {W : Type}.

(** The global [fetch], once per way it is called: a POST of a form body,
    and a GET with an [Authorization] header. Either may reject. *)
Variable fetch_post : string → string → Async W (Response LinkedInTokenResponse).
Variable fetch_get : string → string → Async W (Response LinkedInProfile).

(** [exchangeCodeForToken] *)
Definition exchangeCodeForToken (code clientId clientSecret redirectUri : string)
  : Async W LinkedInTokenResponse :=
  let params :=
    [ ("grant_type", "authorization_code");
      ("code", code);
      ("redirect_uri", redirectUri);
      ("client_id", clientId);
      ("client_secret", clientSecret) ] in
  response ← fetch_post LINKEDIN_TOKEN_URL (URLSearchParams_toString params);
  if negb (ok response) then
    errorText ← settle (text response);
    throw (ThrownError ("LinkedIn token exchange failed: "
                          +:+ pretty (status response) +:+ " - " +:+ errorText))
  else settle (json response).

(** [fetchLinkedInProfile] *)
Definition fetchLinkedInProfile (accessToken : string) : Async W LinkedInProfile :=
  response ← fetch_get LINKEDIN_USERINFO_URL ("Bearer " +:+ accessToken);
  if negb (ok response) then
    errorText ← settle (text response);
    throw (ThrownError ("LinkedIn profile fetch failed: "
                          +:+ pretty (status response) +:+ " - " +:+ errorText))
  else settle (json response).

(** [completeLinkedInOAuth] *)
Definition completeLinkedInOAuth (code clientId clientSecret redirectUri : string)
  : Async W LinkedInProfile :=
  tokenResponse ← exchangeCodeForToken code clientId clientSecret redirectUri;
  fetchLinkedInProfile (access_token tokenResponse).

End network.

End linkedin.

(** ** convex/linkedinAuth.ts *)
Module linkedinAuth.
Import linkedin.

(** *** Documents *)

(** The fields of an [agents] document that the flow reads or writes. *)
Record Agent := {
  handle : string;
  verified : bool;
  verificationType : string;
  verificationData : option string;
  verificationTier : option string;
  linkedinId : option string;
  linkedinName : option string;
  linkedinVerifiedAt : option Z;
  inviteCodesRemaining : option Z;
  canInvite : bool;
  updatedAt : Z;
}.

(** A [linkedinVerificationRequests] document. *)
Record VerificationRequest := {
  _id : positive;
  agentId : positive;
  state : string;
  createdAt : Z;
  expiresAt : Z;
  completedAt : option Z;
  error : option string;
}.

(** An [activityLog] document. *)
Record ActivityLogEntry := {
  log_agentId : positive;
  log_action : string;
  log_description : string;
  log_requiresApproval : bool;
  log_createdAt : Z;
}.

(** The database: [agents] by identifier, the request table in creation
    order, the log, and the supply of fresh request identifiers. *)
Record DB := {
  agents : gmap positive Agent;
  linkedinVerificationRequests : list VerificationRequest;
  activityLog : list ActivityLogEntry;
  nextId : positive;
}.

(** [process.env]: a variable is a string or undefined. *)
Record ProcessEnv := {
  LINKEDIN_CLIENT_ID : option string;
  LINKEDIN_CLIENT_SECRET : option string;
  LINKEDIN_REDIRECT_URI : option string;
}.

#[global] Instance Agent_eq_dec : EqDecision Agent.
Proof. solve_decision. Defined.
#[global] Instance VerificationRequest_eq_dec : EqDecision VerificationRequest.
Proof. solve_decision. Defined.

(** *** JavaScript truthiness *)

(** [if (x)] on an optional number: undefined and [0] are falsy. *)
Definition truthy_number (x : option Z) : bool :=
  match x with
  | Some n => negb (Z.eqb n 0)
  | None => false
  end.

(** [if (x)] on an optional string: undefined and [""] are falsy. *)
Definition truthy_string (x : option string) : bool :=
  match x with
  | Some s => negb (String.eqb s EmptyString)
  | None => false
  end.

(** *** Results of the handlers *)

Inductive StartResult :=
  | StartSuccess (authorizationUrl : string) (expiresIn : Z) (message : string)
  | StartFailure (error : string).

Inductive CompleteResult :=
  | CompleteSuccess (agentId : positive) (agentHandle : string) (linkedinName : string)
  | CompleteFailure (error : string).

Inductive ValidateResult :=
  | StateValid (agentId : positive)
  | StateInvalid (error : string).

Record VerificationStatus := {
  pending : bool;
  status_verified : bool;
  status_verificationType : option string;
  status_linkedinId : option string;
  status_linkedinName : option string;
  verifiedAt : option Z;
  pendingExpiresAt : option Z;
}.

(** *** Transactions

    A mutation handler runs as one transaction on the database: a state
    monad. A query handler only reads: a function of the database. *)
Definition Mutation (A : Type) : Type := DB → A * DB.
Definition Query (A : Type) : Type := DB → A.

#[global] Instance Mutation_ret : MRet Mutation := λ A a db, (a, db).
#[global] Instance Mutation_bind : MBind Mutation :=
  λ A B f m db, let '(a, db') := m db in f a db'.

(** Reading inside a mutation. *)
Definition read {A} (q : Query A) : Mutation A := λ db, (q db, db).

(** [for (const x of l) { await body(x) }] *)
Fixpoint for_each {A} (l : list A) (body : A → Mutation unit) : Mutation unit :=
  match l with
  | [] => mret tt
  | x :: l' => body x ;; for_each l' body
  end.

(** [ctx.db.get(agentId)] *)
Definition db_get_agent (id : positive) : Query (option Agent) :=
  λ db, agents db !! id.

(** [ctx.db.query("linkedinVerificationRequests")
      .withIndex("by_state", q => q.eq("state", s)).first()] *)
Definition first_by_state (s : string) : Query (option VerificationRequest) :=
  λ db, head (filter (λ r, state r = s) (linkedinVerificationRequests db)).

(** [.withIndex("by_agentId", q => q.eq("agentId", a))
     .filter(q => q.eq(q.field("completedAt"), undefined))] *)
Definition uncompleted_of (a : positive) (r : VerificationRequest) : Prop :=
  agentId r = a ∧ completedAt r = None.

#[global] Instance uncompleted_of_dec a r : Decision (uncompleted_of a r).
Proof. unfold uncompleted_of. apply _. Defined.

Definition collect_uncompleted (a : positive) : Query (list VerificationRequest) :=
  λ db, filter (uncompleted_of a) (linkedinVerificationRequests db).

(** [ctx.db.delete(id)] on the request table. *)
Definition db_delete_request (id : positive) : Mutation unit :=
  λ db, (tt, {| agents := agents db;
                linkedinVerificationRequests :=
                  filter (λ r, _id r ≠ id) (linkedinVerificationRequests db);
                activityLog := activityLog db;
                nextId := nextId db |}).

(** [ctx.db.insert("linkedinVerificationRequests", {agentId, state,
    createdAt, expiresAt})]: the new document gets a fresh identifier and is
    the latest of the table. *)
Definition db_insert_request (a : positive) (s : string) (created expires : Z)
  : Mutation positive :=
  λ db, (nextId db,
         {| agents := agents db;
            linkedinVerificationRequests :=
              linkedinVerificationRequests db ++
              [ {| _id := nextId db; agentId := a; state := s;
                   createdAt := created; expiresAt := expires;
                   completedAt := None; error := None |} ];
            activityLog := activityLog db;
            nextId := Pos.succ (nextId db) |}).

(** [ctx.db.patch(id, fields)] on the request table: [fields] are merged
    into the document with that identifier. *)
Definition db_patch_request (id : positive)
    (fields : VerificationRequest → VerificationRequest) : Mutation unit :=
  λ db, (tt, {| agents := agents db;
                linkedinVerificationRequests :=
                  (λ r, if decide (_id r = id) then fields r else r)
                    <$> linkedinVerificationRequests db;
                activityLog := activityLog db;
                nextId := nextId db |}).

(** [ctx.db.patch(agentId, fields)] on the agents. *)
Definition db_patch_agent (id : positive) (fields : Agent → Agent) : Mutation unit :=
  λ db, (tt, {| agents := alter fields id (agents db);
                linkedinVerificationRequests := linkedinVerificationRequests db;
                activityLog := activityLog db;
                nextId := nextId db |}).

(** [ctx.db.insert("activityLog", entry)] *)
Definition db_insert_log (entry : ActivityLogEntry) : Mutation unit :=
  λ db, (tt, {| agents := agents db;
                linkedinVerificationRequests := linkedinVerificationRequests db;
                activityLog := activityLog db ++ [entry];
                nextId := nextId db |}).

(** The object literals handed to [ctx.db.patch]. *)

(** [{ error: e }] *)
Definition fields_error (e : string) (r : VerificationRequest) : VerificationRequest :=
  {| _id := _id r; agentId := agentId r; state := state r;
     createdAt := createdAt r; expiresAt := expiresAt r;
     completedAt := completedAt r; error := Some e |}.

(** [{ completedAt: now }] *)
Definition fields_completedAt (now : Z) (r : VerificationRequest) : VerificationRequest :=
  {| _id := _id r; agentId := agentId r; state := state r;
     createdAt := createdAt r; expiresAt := expiresAt r;
     completedAt := Some now; error := error r |}.

(** [{ verified: true, verificationType: "linkedin", verificationData:
    args.linkedinId, verificationTier: "verified", linkedinId, linkedinName,
    linkedinVerifiedAt: now, updatedAt: now }] *)
Definition fields_linkedin (id name : string) (now : Z) (a : Agent) : Agent :=
  {| handle := handle a;
     verified := true;
     verificationType := "linkedin";
     verificationData := Some id;
     verificationTier := Some "verified";
     linkedinId := Some id;
     linkedinName := Some name;
     linkedinVerifiedAt := Some now;
     inviteCodesRemaining := inviteCodesRemaining a;
     canInvite := canInvite a;
     updatedAt := now |}.

(** [{ inviteCodesRemaining: codes, canInvite: true }] *)
Definition fields_invites (codes : Z) (a : Agent) : Agent :=
  {| handle := handle a;
     verified := verified a;
     verificationType := verificationType a;
     verificationData := verificationData a;
     verificationTier := verificationTier a;
     linkedinId := linkedinId a;
     linkedinName := linkedinName a;
     linkedinVerifiedAt := linkedinVerifiedAt a;
     inviteCodesRemaining := Some codes;
     canInvite := true;
     updatedAt := updatedAt a |}.

(** *** The handlers *)
Section handlers.

(** [verifyApiKey] of [./lib/utils]: resolves a key to an agent identifier
    or to null, reading the database. It belongs to another module of the
    repository, so the handlers take it as a parameter. *)
Variable verifyApiKey : string → Query (option positive).

(** [startVerification]'s handler. [process.env], the bytes of
    [crypto.getRandomValues] and [Date.now()] are arguments. *)
Definition startVerification (env : ProcessEnv) (randomValues : list byte)
    (now : Z) (apiKey : string) : Mutation StartResult :=
  agentId ← read (verifyApiKey apiKey);
  match agentId with
  | None => mret (StartFailure "Invalid API key")
  | Some agentId =>
    agent ← read (db_get_agent agentId);
    match agent with
    | None => mret (StartFailure "Agent not found")
    | Some agent =>
      if bool_decide (verificationType agent = "linkedin") && verified agent then
        mret (StartFailure "Agent is already LinkedIn verified")
      else
        let clientId := LINKEDIN_CLIENT_ID env in
        let clientSecret := LINKEDIN_CLIENT_SECRET env in
        let redirectUri := LINKEDIN_REDIRECT_URI env in
        if negb (truthy_string clientId) || negb (truthy_string clientSecret)
           || negb (truthy_string redirectUri) then
          mret (StartFailure "LinkedIn OAuth not configured. Please set LINKEDIN_CLIENT_ID, LINKEDIN_CLIENT_SECRET, and LINKEDIN_REDIRECT_URI.")
        else
          let state := generateOAuthState randomValues in
          let expiresAt := now + STATE_EXPIRATION_MS in
          pendingRequests ← read (collect_uncompleted agentId);
          for_each pendingRequests (λ request, db_delete_request (_id request));;
          db_insert_request agentId state now expiresAt;;
          let authorizationUrl :=
            buildLinkedInAuthUrl (default "" clientId) (default "" redirectUri) state in
          mret (StartSuccess authorizationUrl
                  (STATE_EXPIRATION_MS `div` 1000)
                  "Have the agent owner visit this URL to complete LinkedIn verification")
    end
  end.

(** [completeVerification]'s handler. *)
Definition completeVerification (now : Z) (arg_state arg_linkedinId arg_linkedinName : string)
  : Mutation CompleteResult :=
  request ← read (first_by_state arg_state);
  match request with
  | None => mret (CompleteFailure "Invalid or expired state token")
  | Some request =>
    if bool_decide (now > expiresAt request) then
      db_patch_request (_id request) (fields_error "State token expired");;
      mret (CompleteFailure "Verification request expired")
    else if truthy_number (completedAt request) then
      mret (CompleteFailure "Verification already completed")
    else
      agent ← read (db_get_agent (agentId request));
      match agent with
      | None =>
        db_patch_request (_id request) (fields_error "Agent not found");;
        mret (CompleteFailure "Agent not found")
      | Some agent =>
        db_patch_request (_id request) (fields_completedAt now);;
        let isNewlyVerified :=
          negb (bool_decide (verificationTier agent = Some "verified")) in
        db_patch_agent (agentId request)
          (fields_linkedin arg_linkedinId arg_linkedinName now);;
        (if isNewlyVerified then
           let currentCodes := default 0 (inviteCodesRemaining agent) in
           db_patch_agent (agentId request) (fields_invites (Z.max currentCodes 3))
         else mret tt);;
        db_insert_log
          {| log_agentId := agentId request;
             log_action := "linkedin_verified";
             log_description := "Agent verified via LinkedIn as " +:+ arg_linkedinName;
             log_requiresApproval := false;
             log_createdAt := now |};;
        mret (CompleteSuccess (agentId request) (handle agent) arg_linkedinName)
      end
  end.

(** [validateState]'s handler. *)
Definition validateState (now : Z) (arg_state : string) : Query ValidateResult :=
  λ db,
  match first_by_state arg_state db with
  | None => StateInvalid "Invalid or expired state token"
  | Some request =>
    if bool_decide (now > expiresAt request) then
      StateInvalid "Verification request expired"
    else if truthy_number (completedAt request) then
      StateInvalid "Verification already completed"
    else
      match db_get_agent (agentId request) db with
      | None => StateInvalid "Agent not found"
      | Some _ => StateValid (agentId request)
      end
  end.

(** [{ pending: false, verified: false }] *)
Definition status_none : VerificationStatus :=
  {| pending := false; status_verified := false;
     status_verificationType := None; status_linkedinId := None;
     status_linkedinName := None; verifiedAt := None;
     pendingExpiresAt := None |}.

(** The request that [getVerificationStatus] looks for:
    [.withIndex("by_agentId", ...)
     .filter(q => q.eq(q.field("completedAt"), undefined))
     .filter(q => q.gt(q.field("expiresAt"), Date.now()))] *)
Definition pending_at (now : Z) (a : positive) (r : VerificationRequest) : Prop :=
  uncompleted_of a r ∧ expiresAt r > now.

#[global] Instance pending_at_dec now a r : Decision (pending_at now a r).
Proof. unfold pending_at. apply _. Defined.

(** [getVerificationStatus]'s handler. *)
Definition getVerificationStatus (now : Z) (apiKey : string) : Query VerificationStatus :=
  λ db,
  match verifyApiKey apiKey db with
  | None => status_none
  | Some agentId =>
    match db_get_agent agentId db with
    | None => status_none
    | Some agent =>
      if bool_decide (verificationType agent = "linkedin") && verified agent then
        {| pending := false; status_verified := true;
           status_verificationType := Some "linkedin";
           status_linkedinId := linkedinId agent;
           status_linkedinName := linkedinName agent;
           verifiedAt := linkedinVerifiedAt agent;
           pendingExpiresAt := None |}
      else
        match head (filter (pending_at now agentId) (linkedinVerificationRequests db)) with
        | Some pendingRequest =>
          {| pending := true; status_verified := false;
             status_verificationType := None; status_linkedinId := None;
             status_linkedinName := None; verifiedAt := None;
             pendingExpiresAt := Some (expiresAt pendingRequest) |}
        | None => status_none
        end
    end
  end.

End handlers.

(** *** The action

    An action runs outside a transaction: it calls the network and runs
    queries and mutations, each a transaction of its own. The world of the
    action is the database and the record of what the action has invoked,
    in order: a query, a fetch, or a mutation whose handler ran. Nothing
    else writes the database between the steps of one action. *)
Import js.

Inductive Event :=
  | RunQuery_validateState (arg_state : string)
  | Fetch (url payload : string)
  | RunMutation_completeVerification (arg_state arg_linkedinId arg_linkedinName : string).

Record World := {
  world_db : DB;
  world_events : list Event;
}.

(** The identity provider, as the answers of [fetch] to the two kinds of
    request the client sends. *)
Record Network := {
  answer_post : string → string → Outcome (Response LinkedInTokenResponse);
  answer_get : string → string → Outcome (Response LinkedInProfile);
}.

Definition emit (e : Event) : Async World unit :=
  λ w, (Returned tt,
        {| world_db := world_db w; world_events := world_events w ++ [e] |}).

Definition fetch_post (net : Network) (url body : string)
  : Async World (Response LinkedInTokenResponse) :=
  emit (Fetch url body);; settle (answer_post net url body).

Definition fetch_get (net : Network) (url authorization : string)
  : Async World (Response LinkedInProfile) :=
  emit (Fetch url authorization);; settle (answer_get net url authorization).

(** [ctx.runQuery]: the query reads the database of the world. The one
    query of the action, [validateState], takes the [state] argument of the
    action, a string by the action's own [args] validator, so Convex never
    refuses the call. *)
Definition runQuery {A} (q : Query A) : Async World A :=
  λ w, (Returned (q (world_db w)), w).

(** What a call throws that Convex refuses because the arguments do not fit
    the [args] validator of the function: an [Error], Convex's
    [ArgumentValidationError]. Its message is Convex's text, which no
    [catch] of this code reads; the model keeps the name for it. *)
Definition ArgumentValidationError : Thrown :=
  ThrownError "ArgumentValidationError".

(** The [args] validator of [completeVerification], three [v.string()], on
    the object that the action builds: [state] is the argument of the
    action, and [linkedinId] and [linkedinName] are what the profile holds
    as [sub] and [name]. *)
Definition completeVerification_args (arg_state : string)
    (arg_linkedinId arg_linkedinName : option string)
  : option (string * string * string) :=
  linkedinId ← arg_linkedinId;
  linkedinName ← arg_linkedinName;
  Some (arg_state, linkedinId, linkedinName).

(** A mutation as a transaction on the database of the world. *)
Definition transaction {A} (m : Mutation A) : Async World A :=
  λ w, let '(a, db') := m (world_db w) in
       (Returned a, {| world_db := db'; world_events := world_events w |}).

(** [ctx.runMutation(f, args)]: Convex checks [args] against the validator
    of [f] and throws without running [f] when they do not fit; otherwise
    the handler of [f] runs as a transaction, which the world records as
    [ran]. *)
Definition runMutation {Args A} (args : option Args) (ran : Args → Event)
    (handler : Args → Mutation A) : Async World A :=
  match args with
  | None => throw ArgumentValidationError
  | Some valid => emit (ran valid);; transaction (handler valid)
  end.

(** [completeLinkedInOAuthAction]'s handler. [now_query] and [now_mutation]
    are what [Date.now()] reads inside [validateState] and inside
    [completeVerification]. The [catch] returns from the handler, so the
    [try] statement yields either that early result or the profile. The
    call of the mutation stands after the [try] statement: what it throws
    is caught by nothing. (A body that is JSON [null] makes the read of
    [profile.sub] in that call throw a [TypeError] instead, from the same
    place and with the same effects; the model does not tell the two errors
    apart.) *)
Definition completeLinkedInOAuthAction (env : ProcessEnv) (net : Network)
    (now_query now_mutation : Z) (arg_state arg_code : string)
  : Async World CompleteResult :=
  emit (RunQuery_validateState arg_state);;
  stateValidation ← runQuery (validateState now_query arg_state);
  match stateValidation with
  | StateInvalid error => mret (CompleteFailure error)
  | StateValid _ =>
    let clientId := LINKEDIN_CLIENT_ID env in
    let clientSecret := LINKEDIN_CLIENT_SECRET env in
    let redirectUri := LINKEDIN_REDIRECT_URI env in
    if negb (truthy_string clientId) || negb (truthy_string clientSecret)
       || negb (truthy_string redirectUri) then
      mret (CompleteFailure "LinkedIn OAuth not configured")
    else
      attempt ← try_catch
        (profile ← completeLinkedInOAuth (fetch_post net) (fetch_get net)
                     arg_code (default "" clientId) (default "" clientSecret)
                     (default "" redirectUri);
         mret (inr profile))
        (λ error,
           let errorMsg :=
             match error with
             | ThrownError message => message
             | ThrownOther => "Unknown error"
             end in
           mret (inl (CompleteFailure ("LinkedIn OAuth failed: " +:+ errorMsg))));
      match attempt with
      | inl result => mret result
      | inr profile =>
        runMutation
          (completeVerification_args arg_state (sub profile) (name profile))
          (λ '(state, linkedinId, linkedinName),
             RunMutation_completeVerification state linkedinId linkedinName)
          (λ '(state, linkedinId, linkedinName),
             completeVerification now_mutation state linkedinId linkedinName)
      end
  end.

End linkedinAuth.

(** ** src/app/(main)/agents/page.tsx

    The state of [AgentsPage] and its three event handlers, as transitions
    of that state. The results of the two [useQuery] calls are inputs:
    undefined while a query loads, otherwise [{ agents, nextCursor }]. The
    agent documents are of type [any] and are not inspected; the search
    query is its sequence of UTF-16 code units, so that [length] is the
    JavaScript [.length]. *)
Module agentsPage.
Section page.
Context {A : Type}.

Record ListResult := {
  agents : list A;
  nextCursor : option string;
}.

Record State := {
  searchQuery : list N;
  verifiedOnly : bool;
  cursor : option string;
  allAgents : list A;
  isLoadingMore : bool;
}.

(** The arguments of the [useState] calls. *)
Definition initial : State :=
  {| searchQuery := []; verifiedOnly := false; cursor := None;
     allAgents := []; isLoadingMore := false |}.

(** [handleSearchChange] *)
Definition handleSearchChange (value : list N) (st : State) : State :=
  {| searchQuery := value; verifiedOnly := verifiedOnly st; cursor := None;
     allAgents := []; isLoadingMore := isLoadingMore st |}.

(** [handleVerifiedChange] *)
Definition handleVerifiedChange (checked : bool) (st : State) : State :=
  {| searchQuery := searchQuery st; verifiedOnly := checked; cursor := None;
     allAgents := []; isLoadingMore := isLoadingMore st |}.

(** [handleLoadMore], with the [agentsList] of the render it was created
    in. *)
Definition handleLoadMore (agentsList : option ListResult) (st : State) : State :=
  let nextCursor := agentsList ≫= nextCursor in
  if linkedinAuth.truthy_string nextCursor && negb (isLoadingMore st)
     && Nat.ltb (length (searchQuery st)) 2 then
    {| searchQuery := searchQuery st; verifiedOnly := verifiedOnly st;
       cursor := nextCursor;
       allAgents :=
         match agentsList with
         | Some result => (allAgents st ++ agents result)%list
         | None => allAgents st
         end;
       isLoadingMore := true |}
  else st.

(** [currentAgents], [displayedAgents] and [hasMore] of a render. *)
Definition currentAgents (st : State) (agentsList searchResults : option ListResult)
  : option (list A) :=
  if Nat.leb 2 (length (searchQuery st)) then agents <$> searchResults
  else agents <$> agentsList.

Definition displayedAgents (st : State) (agentsList searchResults : option ListResult)
  : option (list A) :=
  if linkedinAuth.truthy_string (cursor st) && Nat.ltb (length (searchQuery st)) 2 then
    Some (allAgents st ++ default [] (currentAgents st agentsList searchResults))%list
  else currentAgents st agentsList searchResults.

Definition hasMore (st : State) (agentsList : option ListResult) : bool :=
  Nat.ltb (length (searchQuery st)) 2
  && linkedinAuth.truthy_string (agentsList ≫= nextCursor).

(** What the user does, and the state after a sequence of it. *)
Inductive Action :=
  | SearchChange (value : list N)
  | VerifiedChange (checked : bool)
  | LoadMore (agentsList : option ListResult).

Definition step (st : State) (e : Action) : State :=
  match e with
  | SearchChange value => handleSearchChange value st
  | VerifiedChange checked => handleVerifiedChange checked st
  | LoadMore agentsList => handleLoadMore agentsList st
  end.

Definition run (events : list Action) (st : State) : State :=
  foldl step st events.

End page.
Arguments ListResult A : clear implicits.
Arguments State A : clear implicits.
Arguments Action A : clear implicits.
End agentsPage.

(** ** The vocabulary of the properties *)
Import linkedin linkedinAuth js.

(** Identifiers of the request table are unique and below the next fresh
    one: what [ctx.db.insert] guarantees. *)
Definition ids_fresh (db : DB) : Prop :=
  NoDup (_id <$> linkedinVerificationRequests db)
  ∧ Forall (λ r, (_id r < nextId db)%positive) (linkedinVerificationRequests db).

(** The single-flow invariant. *)
Definition single_flow (db : DB) : Prop :=
  ∀ a, (length (collect_uncompleted a db) ≤ 1)%nat.

(** A [startVerification] call, with what it reads from its environment. *)
Record StartCall := {
  call_env : ProcessEnv;
  call_random : list byte;
  call_now : Z;
  call_apiKey : string;
}.

(** The database after one call, and after a sequence of calls, with
    [verifyApiKey] as the resolver of keys. *)
Definition run_start (verifyApiKey : string → Query (option positive))
    (db : DB) (c : StartCall) : DB :=
  (startVerification verifyApiKey (call_env c) (call_random c) (call_now c)
     (call_apiKey c) db).2.

Definition run_starts (verifyApiKey : string → Query (option positive))
    (calls : list StartCall) (db : DB) : DB :=
  foldl (run_start verifyApiKey) db calls.

(** The row that a start at [now] inserts for agent [a]. *)
Definition started_request (db : DB) (a : positive) (randomValues : list byte)
    (now : Z) : VerificationRequest :=
  {| _id := nextId db; agentId := a; state := generateOAuthState randomValues;
     createdAt := now; expiresAt := now + STATE_EXPIRATION_MS;
     completedAt := None; error := None |}.

(** The database after [ctx.db.patch(id, fields)] on a request. *)
Definition patched (id : positive) (fields : VerificationRequest → VerificationRequest)
    (db : DB) : DB :=
  (db_patch_request id fields db).2.

(** No row carries the state [s]: the state was never issued, or its row
    was deleted by a later start. *)
Definition never_issued (s : string) (db : DB) : Prop :=
  Forall (λ r, state r ≠ s) (linkedinVerificationRequests db).

(** The agent after a successful completion. *)
Definition completed_agent (agent : Agent) (id name : string) (now : Z) : Agent :=
  let linked := fields_linkedin id name now agent in
  if bool_decide (verificationTier agent = Some "verified") then linked
  else fields_invites (Z.max (default 0 (inviteCodesRemaining agent)) 3) linked.

(** Every completion timestamp of the table is a reading of the clock
    after the epoch: none is 0. *)
Definition completions_stamped (db : DB) : Prop :=
  Forall (λ r, completedAt r ≠ Some 0) (linkedinVerificationRequests db).

(** One of the three provider settings is absent. *)
Definition lacks_setting (env : ProcessEnv) : Prop :=
  LINKEDIN_CLIENT_ID env = None
  ∨ LINKEDIN_CLIENT_SECRET env = None
  ∨ LINKEDIN_REDIRECT_URI env = None.

(** The world after the action has invoked [events] and nothing was
    written. *)
Definition invoked (w : World) (events : list Event) : World :=
  {| world_db := world_db w; world_events := (world_events w ++ events)%list |}.

Definition is_fetch (e : Event) : Prop := ∃ url payload, e = Fetch url payload.

(** [error instanceof Error ? error.message : "Unknown error"] *)
Definition message_of (t : Thrown) : string :=
  match t with
  | ThrownError message => message
  | ThrownOther => "Unknown error"
  end.

(** All three provider settings are present and not empty. *)
Definition configured (env : ProcessEnv) : Prop :=
  truthy_string (LINKEDIN_CLIENT_ID env) = true
  ∧ truthy_string (LINKEDIN_CLIENT_SECRET env) = true
  ∧ truthy_string (LINKEDIN_REDIRECT_URI env) = true.

(** The exchange that the action attempts, from the world in which the
    validation has been invoked. *)
Definition exchange (env : ProcessEnv) (net : Network) (s code : string) (w : World)
  : Outcome LinkedInProfile * World :=
  completeLinkedInOAuth (fetch_post net) (fetch_get net) code
    (default "" (LINKEDIN_CLIENT_ID env))
    (default "" (LINKEDIN_CLIENT_SECRET env))
    (default "" (LINKEDIN_REDIRECT_URI env))
    (invoked w [RunQuery_validateState s]).

(** Reading the first byte back from a form-encoded string: [+] is a
    space, [%XY] the byte with the hexadecimal digits [X] and [Y], any other
    character itself. It undoes [urlencode_byte], which shows that the
    serializer loses nothing. *)
Definition hex_value (c : ascii) : option nat :=
  let n := nat_of_ascii c in
  if is_digit c then Some (n - 48)%nat
  else if Nat.leb 65 n && Nat.leb n 70 then Some (n - 55)%nat
  else None.

Definition decode_head (s : string) : option (ascii * string) :=
  match s with
  | EmptyString => None
  | String c r =>
    if Ascii.eqb c "+" then Some (" "%char, r)
    else if Ascii.eqb c "%" then
      match r with
      | String h (String l r') =>
        match hex_value h, hex_value l with
        | Some a, Some b => Some (ascii_of_nat (16 * a + b), r')
        | _, _ => None
        end
      | _ => None
      end
    else Some (c, r)
  end.

(** The string does not contain the separator [&]. *)
Definition no_amp (s : string) : bool :=
  forallb (λ c, negb (Ascii.eqb c "&")) (list_ascii_of_string s).

(** A call of one of the two mutations of the flow, with what it reads
    from its environment, and the database after a sequence of such calls. *)
Inductive FlowCall :=
  | CallStart (c : StartCall)
  | CallComplete (now : Z) (arg_state arg_linkedinId arg_linkedinName : string).

Definition run_call (verifyApiKey : string → Query (option positive))
    (db : DB) (c : FlowCall) : DB :=
  match c with
  | CallStart c => run_start verifyApiKey db c
  | CallComplete now s id name => (completeVerification now s id name db).2
  end.

Definition run_calls (verifyApiKey : string → Query (option positive))
    (calls : list FlowCall) (db : DB) : DB :=
  foldl (run_call verifyApiKey) db calls.

(** The log entry of a completion. *)
Definition verified_entry (a : positive) (name : string) (now : Z) : ActivityLogEntry :=
  {| log_agentId := a;
     log_action := "linkedin_verified";
     log_description := "Agent verified via LinkedIn as " +:+ name;
     log_requiresApproval := false;
     log_createdAt := now |}.

(** The form body that [exchangeCodeForToken] posts. *)
Definition token_request_body (code clientId clientSecret redirectUri : string) : string :=
  "grant_type=authorization_code&code=" +:+ urlencode code
  +:+ "&redirect_uri=" +:+ urlencode redirectUri
  +:+ "&client_id=" +:+ urlencode clientId
  +:+ "&client_secret=" +:+ urlencode clientSecret.

(** The character of the alphabet at an index below its length. *)
Definition alphabet_at (n : nat) : ascii :=
  default "A"%char (String.get n chars).

(** The 256 values of a byte, in order. *)
Definition all_bytes : list byte :=
  omap Byte.of_nat (seq 0 256).

(** How often the character [x] occurs in [s]. *)
Definition occurrences (x : ascii) (s : string) : nat :=
  length (filter (λ c, c = x) (list_ascii_of_string s)).

(** The characters that delimit the parts of a URL and its query. *)
Definition url_delimiters : list ascii :=
  ["&"; "="; "?"; "#"; " "]%char.

(** ** Data for the worked instances *)
Module fixtures.
Import linkedin linkedinAuth js.

(** A resolver of keys that knows two agents. *)
Definition two_keys : string → Query (option positive) :=
  λ apiKey _,
    if String.eqb apiKey "key-1" then Some 1%positive
    else if String.eqb apiKey "key-2" then Some 2%positive
    else None.

Definition env_ok : ProcessEnv :=
  {| LINKEDIN_CLIENT_ID := Some "client-1";
     LINKEDIN_CLIENT_SECRET := Some "s3cret";
     LINKEDIN_REDIRECT_URI := Some "https://linkclaws.example/cb" |}.

Definition env_no_secret : ProcessEnv :=
  {| LINKEDIN_CLIENT_ID := Some "client-1";
     LINKEDIN_CLIENT_SECRET := None;
     LINKEDIN_REDIRECT_URI := Some "https://linkclaws.example/cb" |}.

(** An agent that no flow has verified, holding one invite code. *)
Definition agent_plain : Agent :=
  {| handle := "claw";
     verified := false;
     verificationType := "none";
     verificationData := None;
     verificationTier := Some "unverified";
     linkedinId := None;
     linkedinName := None;
     linkedinVerifiedAt := None;
     inviteCodesRemaining := Some 1;
     canInvite := false;
     updatedAt := 1000 |}.

(** An agent verified by e-mail, on the verified tier, holding seven
    invite codes. *)
Definition agent_email : Agent :=
  {| handle := "pincer";
     verified := true;
     verificationType := "email";
     verificationData := Some "pincer@example.org";
     verificationTier := Some "verified";
     linkedinId := None;
     linkedinName := None;
     linkedinVerifiedAt := None;
     inviteCodesRemaining := Some 7;
     canInvite := true;
     updatedAt := 1000 |}.

Definition request_of (id a : positive) (s : string) (created : Z)
    (completed : option Z) : VerificationRequest :=
  {| _id := id; agentId := a; state := s; createdAt := created;
     expiresAt := created + STATE_EXPIRATION_MS;
     completedAt := completed; error := None |}.

Definition db_empty : DB :=
  {| agents := {[ 1%positive := agent_plain; 2%positive := agent_email ]};
     linkedinVerificationRequests := [];
     activityLog := [];
     nextId := 1 |}.

(** Agent 1 has an open request, agent 2 an open and a completed one. *)
Definition db_open : DB :=
  {| agents := {[ 1%positive := agent_plain; 2%positive := agent_email ]};
     linkedinVerificationRequests :=
       [ request_of 1 1 "stateA" 5000 None;
         request_of 2 2 "stateB" 6000 (Some 7000);
         request_of 3 2 "stateC" 8000 None ];
     activityLog := [];
     nextId := 4 |}.

Definition bytes32 : list byte := replicate 32 "x"%byte.

(** A provider that answers both requests, one whose token endpoint
    answers 401, and one that cannot be reached. *)
Definition token_response : LinkedInTokenResponse :=
  {| access_token := "tok-1"; expires_in := 3600;
     scope := Some "openid,profile,email"; token_type := Some "Bearer" |}.

Definition profile_jane : LinkedInProfile :=
  {| sub := Some "abc123"; name := Some "Jane Doe"; given_name := "Jane";
     family_name := "Doe"; email := "jane@example.org";
     email_verified := true; picture := None; locale := None |}.

Definition net_ok : Network :=
  {| answer_post := λ _ _,
       Returned {| ok := true; status := 200; text := Returned "";
                   json := Returned token_response |};
     answer_get := λ _ _,
       Returned {| ok := true; status := 200; text := Returned "";
                   json := Returned profile_jane |} |}.

Definition net_401 : Network :=
  {| answer_post := λ _ _,
       Returned {| ok := false; status := 401; text := Returned "invalid_client";
                   json := Threw (ThrownError "Unexpected token") |};
     answer_get := answer_get net_ok |}.

Definition net_down : Network :=
  {| answer_post := λ _ _, Threw (ThrownError "fetch failed");
     answer_get := λ _ _, Threw (ThrownError "fetch failed") |}.

Definition world_open : World :=
  {| world_db := db_open; world_events := [] |}.

(** A client secret that is set to the empty string. *)
Definition env_empty_secret : ProcessEnv :=
  {| LINKEDIN_CLIENT_ID := Some "client-1";
     LINKEDIN_CLIENT_SECRET := Some "";
     LINKEDIN_REDIRECT_URI := Some "https://linkclaws.example/cb" |}.


(** A provider whose userinfo endpoint answers 200 with a body that has
    no [name]. *)
Definition profile_nameless : LinkedInProfile :=
  {| sub := Some "abc123"; name := None; given_name := "Jane";
     family_name := "Doe"; email := "jane@example.org";
     email_verified := true; picture := None; locale := None |}.

Definition net_nameless : Network :=
  {| answer_post := answer_post net_ok;
     answer_get := λ _ _,
       Returned {| ok := true; status := 200; text := Returned "";
                   json := Returned profile_nameless |} |}.

(** Agent 1 has started at 9000 on [db_open]. *)
Definition token32 : string := generateOAuthState bytes32.

Definition start_message : string :=
  "Have the agent owner visit this URL to complete LinkedIn verification".

Definition url_started : string :=
  buildLinkedInAuthUrl "client-1" "https://linkclaws.example/cb" token32.

Definition db_started : DB :=
  (startVerification two_keys env_ok bytes32 9000 "key-1" db_open).2.

Definition world_started : World :=
  {| world_db := db_started; world_events := [] |}.

End fixtures.

(** * Properties *)
Import linkedin linkedinAuth js.

Arguments generateOAuthState _ : simpl never.
Arguments buildLinkedInAuthUrl _ _ _ : simpl never.

(** Unfolding the transaction monad. *)
Ltac run_mutation :=
  repeat (unfold mbind, mret, Mutation_bind, Mutation_ret, read in *; cbn [fst snd] in * ).

Section start_facts.
Variable verifyApiKey : string → Query (option positive).

Lemma for_each_delete (l : list VerificationRequest) (db : DB) :
  for_each l (λ request, db_delete_request (_id request)) db =
  (tt, {| agents := agents db;
          linkedinVerificationRequests :=
            filter (λ r, _id r ∉ _id <$> l) (linkedinVerificationRequests db);
          activityLog := activityLog db;
          nextId := nextId db |}).
Proof.
  revert db. induction l as [|x l IH]; intros db.
  - cbn. f_equal. destruct db; cbn. f_equal.
    induction linkedinVerificationRequests0 as [|r rs IHr]; [done|].
    rewrite filter_cons_True; [by f_equal|]. cbn. apply not_elem_of_nil.
  - cbn [for_each]. run_mutation. unfold db_delete_request at 1.
    rewrite IH. cbn. do 2 f_equal.
    rewrite list_filter_filter. apply list_filter_iff. intros r.
    rewrite not_elem_of_cons. tauto.
Qed.

Lemma same_id_same_row (rs : list VerificationRequest) r r' :
  NoDup (_id <$> rs) → r ∈ rs → r' ∈ rs → _id r = _id r' → r = r'.
Proof.
  induction rs as [|x rs IH]; [by intros _ ?%elem_of_nil|].
  rewrite fmap_cons, NoDup_cons. intros [Hx Hnd] Hr Hr' Hid.
  apply elem_of_cons in Hr as [->|Hr]; apply elem_of_cons in Hr' as [->|Hr'];
    try done.
  - exfalso. apply Hx. rewrite Hid. by apply list_elem_of_fmap_2.
  - exfalso. apply Hx. rewrite <-Hid. by apply list_elem_of_fmap_2.
  - by apply IH.
Qed.

Lemma delete_uncompleted (a : positive) (rs : list VerificationRequest) :
  NoDup (_id <$> rs) →
  filter (λ r, _id r ∉ _id <$> filter (uncompleted_of a) rs) rs
  = filter (λ r, ¬ uncompleted_of a r) rs.
Proof.
  intros Hnd.
  assert (∀ l, l ⊆ rs →
               filter (λ r, _id r ∉ _id <$> filter (uncompleted_of a) rs) l
               = filter (λ r, ¬ uncompleted_of a r) l) as Hgen.
  { induction l as [|x l IH]; intros Hl; [done|].
    assert (x ∈ rs) as Hx by (apply Hl; left).
    rewrite !filter_cons, IH by (intros y Hy; apply Hl; by right).
    destruct (decide (uncompleted_of a x)) as [Hu|Hu].
    - rewrite decide_False, decide_False; [done|tauto|].
      intros Hn. apply Hn. apply list_elem_of_fmap_2.
      by apply list_elem_of_filter.
    - rewrite decide_True, decide_True; [done|done|].
      intros (r' & Hid & Hr')%list_elem_of_fmap.
      apply list_elem_of_filter in Hr' as [Hu' Hr'].
      by rewrite (same_id_same_row rs x r' Hnd Hx Hr' Hid) in Hu. }
  by apply Hgen.
Qed.

(** What a successful start did, read off the handler. *)
Lemma start_success_inv env randomValues now apiKey db url e msg db' :
  startVerification verifyApiKey env randomValues now apiKey db
    = (StartSuccess url e msg, db') →
  ∃ a agent,
    verifyApiKey apiKey db = Some a
    ∧ agents db !! a = Some agent
    ∧ (bool_decide (verificationType agent = "linkedin") && verified agent) = false
    ∧ truthy_string (LINKEDIN_CLIENT_ID env) = true
    ∧ truthy_string (LINKEDIN_CLIENT_SECRET env) = true
    ∧ truthy_string (LINKEDIN_REDIRECT_URI env) = true
    ∧ url = buildLinkedInAuthUrl (default "" (LINKEDIN_CLIENT_ID env))
              (default "" (LINKEDIN_REDIRECT_URI env))
              (generateOAuthState randomValues)
    ∧ e = STATE_EXPIRATION_MS `div` 1000
    ∧ db' = {| agents := agents db;
               linkedinVerificationRequests :=
                 filter (λ r, _id r ∉ _id <$> collect_uncompleted a db)
                        (linkedinVerificationRequests db)
                 ++ [started_request db a randomValues now];
               activityLog := activityLog db;
               nextId := Pos.succ (nextId db) |}.
Proof.
  unfold startVerification. run_mutation.
  destruct (verifyApiKey apiKey db) as [a|] eqn:Hkey; [|done].
  unfold db_get_agent at 1.
  destruct (agents db !! a) as [agent|] eqn:Hagent; [|done].
  destruct (bool_decide _ && verified agent) eqn:Hlinked; [done|].
  destruct (truthy_string (LINKEDIN_CLIENT_ID env)) eqn:Hid; [|done].
  destruct (truthy_string (LINKEDIN_CLIENT_SECRET env)) eqn:Hsecret; [|done].
  destruct (truthy_string (LINKEDIN_REDIRECT_URI env)) eqn:Huri; [|done].
  cbn [negb orb]. rewrite for_each_delete. cbn.
  intros [= <- <- <- <-]. exists a, agent. by repeat split.
Qed.

(** A failing start leaves the database as it found it. *)
Lemma start_failure_inv env randomValues now apiKey db err db' :
  startVerification verifyApiKey env randomValues now apiKey db
    = (StartFailure err, db') →
  db' = db.
Proof.
  unfold startVerification. run_mutation.
  destruct (verifyApiKey apiKey db) as [a|]; [|by intros [= _ <-]].
  unfold db_get_agent at 1.
  destruct (agents db !! a) as [agent|]; [|by intros [= _ <-]].
  destruct (bool_decide _ && verified agent); [by intros [= _ <-]|].
  destruct (_ || _); [by intros [= _ <-]|].
  rewrite for_each_delete. cbn. done.
Qed.

Lemma start_keeps_stamped (db : DB) (c : StartCall) :
  completions_stamped db → completions_stamped (run_start verifyApiKey db c).
Proof.
  intros Hdb. unfold run_start.
  destruct (startVerification _ _ _ _ _ db) as [[url e msg|err] db'] eqn:Hrun.
  - apply start_success_inv in Hrun as (a & agent & _ & _ & _ & _ & _ & _ & _ & _ & ->).
    unfold completions_stamped. cbn [snd linkedinVerificationRequests].
    apply Forall_app. split; [|by apply Forall_singleton].
    apply Forall_forall. intros r [_ Hr]%list_elem_of_filter.
    by apply (proj1 (Forall_forall _ _) Hdb).
  - by apply start_failure_inv in Hrun as ->.
Qed.

Lemma uncompleted_after_delete (a b : positive) (rs : list VerificationRequest) :
  filter (uncompleted_of b)
    (filter (λ r, _id r ∉ _id <$> filter (uncompleted_of a) rs) rs)
  = if decide (b = a) then [] else
      filter (λ r, _id r ∉ _id <$> filter (uncompleted_of a) rs)
        (filter (uncompleted_of b) rs).
Proof.
  rewrite !list_filter_filter. case_decide as Hab.
  - subst b.
    assert (∀ l, l ⊆ rs →
       filter (λ r, uncompleted_of a r
                    ∧ _id r ∉ _id <$> filter (uncompleted_of a) rs) l = []) as Hgen.
    { induction l as [|x l IH]; intros Hl; [done|].
      rewrite filter_cons_False; [apply IH; intros y Hy; apply Hl; by right|].
      intros [Hu Hn]. apply Hn, list_elem_of_fmap_2, list_elem_of_filter.
      split; [done|]. apply Hl. left. }
    by apply Hgen.
  - apply list_filter_iff. tauto.
Qed.

Lemma start_single_flow (db : DB) (c : StartCall) :
  single_flow db → single_flow (run_start verifyApiKey db c).
Proof.
  intros Hinv b. unfold run_start.
  destruct (startVerification _ _ _ _ _ db) as [[url e msg|err] db'] eqn:Hrun.
  - apply start_success_inv in Hrun as (a & agent & _ & _ & _ & _ & _ & _ & _ & _ & ->).
    unfold collect_uncompleted. cbn [snd linkedinVerificationRequests].
    rewrite filter_app, uncompleted_after_delete, length_app.
    rewrite filter_cons, filter_nil.
    destruct (decide (b = a)) as [->|Hne].
    + rewrite decide_True by done. cbn. lia.
    + rewrite decide_False by (intros [? _]; cbn in *; congruence).
      pose proof (length_filter (λ r, _id r ∉ _id <$> filter (uncompleted_of a) (linkedinVerificationRequests db))
                    (filter (uncompleted_of b) (linkedinVerificationRequests db))).
      specialize (Hinv b). unfold collect_uncompleted in Hinv. cbn. lia.
  - apply start_failure_inv in Hrun as ->. apply Hinv.
Qed.

Lemma starts_single_flow (calls : list StartCall) (db : DB) :
  single_flow db → single_flow (run_starts verifyApiKey calls db).
Proof.
  revert db. induction calls as [|c calls IH]; intros db Hinv; [done|].
  cbn. apply IH, start_single_flow, Hinv.
Qed.

End start_facts.

Section start_invariant.
Variable verifyApiKey : string → Query (option positive).

Lemma start_ids_fresh (db : DB) (c : StartCall) :
  ids_fresh db → ids_fresh (run_start verifyApiKey db c).
Proof.
  intros [Hnd Hlt]. unfold run_start.
  destruct (startVerification _ _ _ _ _ db) as [[url e msg|err] db'] eqn:Hrun.
  - apply start_success_inv in Hrun as (a & agent & _ & _ & _ & _ & _ & _ & _ & _ & ->).
    unfold ids_fresh. cbn [snd linkedinVerificationRequests nextId].
    set (keep := filter _ (linkedinVerificationRequests db)).
    assert (Forall (λ r, (_id r < nextId db)%positive) keep) as Hkeep.
    { apply Forall_forall. intros r [_ Hr]%list_elem_of_filter.
      by apply (proj1 (Forall_forall _ _) Hlt). }
    split.
    + rewrite fmap_app. apply NoDup_app. split; [|split].
      * apply (NoDup_fmap_2_strong _); [|by apply NoDup_filter, (NoDup_fmap_1 _id)].
        intros x y [_ Hx]%list_elem_of_filter [_ Hy]%list_elem_of_filter.
        by apply (same_id_same_row (linkedinVerificationRequests db)).
      * intros i (r & -> & Hr)%list_elem_of_fmap Hin. cbn in Hin.
        apply list_elem_of_singleton in Hin.
        pose proof (proj1 (Forall_forall _ _) Hkeep r Hr) as Hr'. cbn in Hr'. lia.
      * cbn. apply NoDup_singleton.
    + apply Forall_app. split.
      * eapply Forall_impl; [exact Hkeep|]. cbn. intros; lia.
      * apply Forall_singleton. cbn. lia.
  - by apply start_failure_inv in Hrun as ->.
Qed.

(** C1. A successful start leaves exactly the row it inserted as the
    agent's uncompleted request, and on a table with unique identifiers it
    removes the agent's uncompleted rows and nothing else before appending
    that row; a failing start leaves the database as it was; hence from any
    database with at most one uncompleted request per agent (an empty table
    is one) every sequence of starts ends in such a database. *)
Theorem start_keeps_one_uncompleted_request :
  (∀ env randomValues now apiKey db url e msg db',
      startVerification verifyApiKey env randomValues now apiKey db
        = (StartSuccess url e msg, db') →
      ∃ a, verifyApiKey apiKey db = Some a
        ∧ collect_uncompleted a db' = [started_request db a randomValues now]
        ∧ (ids_fresh db →
           linkedinVerificationRequests db'
           = (filter (λ r, ¬ uncompleted_of a r) (linkedinVerificationRequests db)
              ++ [started_request db a randomValues now])%list))
  ∧ (∀ env randomValues now apiKey db err db',
      startVerification verifyApiKey env randomValues now apiKey db
        = (StartFailure err, db') →
      db' = db)
  ∧ (∀ calls db,
      single_flow db → single_flow (run_starts verifyApiKey calls db))
  ∧ (∀ calls db,
      linkedinVerificationRequests db = [] →
      single_flow (run_starts verifyApiKey calls db)).
Proof.
  split; [|split; [|split]].
  - intros env randomValues now apiKey db url e msg db' Hrun.
    apply start_success_inv in Hrun as (a & agent & Hkey & _ & _ & _ & _ & _ & _ & _ & ->).
    exists a. split; [done|]. split.
    + unfold collect_uncompleted. cbn [linkedinVerificationRequests].
      rewrite filter_app, uncompleted_after_delete, decide_True by done.
      rewrite filter_cons_True, filter_nil; [done|]. by split.
    + intros [Hnd _]. cbn [linkedinVerificationRequests]. f_equal.
      by apply delete_uncompleted.
  - intros env randomValues now apiKey db err db'. apply start_failure_inv.
  - intros calls db. apply starts_single_flow.
  - intros calls db Hempty. apply starts_single_flow.
    intros a. unfold collect_uncompleted. rewrite Hempty. cbn. lia.
Qed.

End start_invariant.

(** On [fixtures.db_open], whose identifiers are unique, agent 2 starts:
    its open request 3 is replaced by the new request 4, and the other rows
    stay. Then two agents start, one of them twice and once in vain, on
    that table and on an empty one: one uncompleted request each is left. *)
Lemma start_keeps_one_uncompleted_request_witness :
  linkedinVerificationRequests
    (run_start fixtures.two_keys fixtures.db_open
       {| call_env := fixtures.env_ok; call_random := fixtures.bytes32;
          call_now := 9500; call_apiKey := "key-2" |})
  = [ fixtures.request_of 1 1 "stateA" 5000 None;
      fixtures.request_of 2 2 "stateB" 6000 (Some 7000);
      fixtures.request_of 4 2 "66666666666666666666666666666666" 9500 None ]
  ∧ (∀ db, db = fixtures.db_open ∨ db = fixtures.db_empty →
       single_flow
         (run_starts fixtures.two_keys
            [ {| call_env := fixtures.env_ok; call_random := fixtures.bytes32;
                 call_now := 9000; call_apiKey := "key-1" |};
              {| call_env := fixtures.env_ok; call_random := fixtures.bytes32;
                 call_now := 9500; call_apiKey := "key-2" |};
              {| call_env := fixtures.env_no_secret; call_random := fixtures.bytes32;
                 call_now := 9600; call_apiKey := "key-2" |};
              {| call_env := fixtures.env_ok; call_random := fixtures.bytes32;
                 call_now := 9900; call_apiKey := "key-1" |} ]
            db)).
Proof.
  pose proof (start_keeps_one_uncompleted_request fixtures.two_keys)
    as (Hsuccess & _ & Hkept & Hempty).
  split.
  - unfold run_start. cbn [call_env call_random call_now call_apiKey].
    destruct (startVerification fixtures.two_keys fixtures.env_ok fixtures.bytes32
                9500 "key-2" fixtures.db_open) as [[url e msg|err] db'] eqn:Hrun;
      [|by vm_compute in Hrun].
    destruct (Hsuccess _ _ _ _ _ _ _ _ _ Hrun) as (a & [= <-] & _ & Htable).
    cbn [snd]. rewrite Htable; [vm_compute; reflexivity|]. split.
    + apply (bool_decide_unpack _). vm_compute. exact I.
    + repeat constructor; cbn; lia.
  - intros db [->| ->].
    + apply Hkept. intros a. unfold collect_uncompleted.
      cbn [linkedinVerificationRequests fixtures.db_open].
      rewrite !filter_cons, filter_nil. unfold uncompleted_of. cbn.
      repeat case_decide; cbn; try lia; destruct_and?; simplify_eq.
    + by apply Hempty.
Defined.

(** ** The validator and the completer *)
Section completion_facts.

Implicit Types (db : DB) (request : VerificationRequest) (now : Z).

(** A patch that leaves [state] alone does not change which row a state
    finds, only that row's fields. *)
Lemma first_by_state_patched (s : string) id fields db :
  (∀ r, state (fields r) = state r) →
  first_by_state s (patched id fields db)
  = (λ r, if decide (_id r = id) then fields r else r) <$> first_by_state s db.
Proof.
  intros Hstate. unfold first_by_state, patched. cbn.
  induction (linkedinVerificationRequests db) as [|r rs IH]; [done|].
  rewrite fmap_cons, !filter_cons.
  assert (state (if decide (_id r = id) then fields r else r) = state r) as Heq.
  { case_decide; [apply Hstate|done]. }
  destruct (decide (state r = s)) as [Hs|Hs].
  - rewrite decide_True by congruence. done.
  - rewrite decide_False by congruence. apply IH.
Qed.

Lemma never_issued_first (s : string) db :
  never_issued s db → first_by_state s db = None.
Proof.
  unfold never_issued, first_by_state. intros Hall.
  induction Hall as [|r rs Hr _ IH]; [done|].
  by rewrite filter_cons_False.
Qed.

(** The whole effect of a completion that passes every check. *)
Lemma complete_live now (s id name : string) db request agent :
  first_by_state s db = Some request →
  ¬ now > expiresAt request →
  truthy_number (completedAt request) = false →
  agents db !! agentId request = Some agent →
  completeVerification now s id name db
  = (CompleteSuccess (agentId request) (handle agent) name,
     {| agents := <[agentId request := completed_agent agent id name now]> (agents db);
        linkedinVerificationRequests :=
          linkedinVerificationRequests (patched (_id request) (fields_completedAt now) db);
        activityLog :=
          (activityLog db ++
           [ {| log_agentId := agentId request;
                log_action := "linkedin_verified";
                log_description := "Agent verified via LinkedIn as " +:+ name;
                log_requiresApproval := false;
                log_createdAt := now |} ])%list;
        nextId := nextId db |}).
Proof.
  intros Hfirst Hlive Hopen Hagent.
  unfold completeVerification. run_mutation. rewrite Hfirst.
  rewrite bool_decide_eq_false_2 by done. rewrite Hopen.
  unfold db_get_agent. cbn. rewrite Hagent. cbn.
  unfold completed_agent.
  destruct (bool_decide (verificationTier agent = Some "verified")); cbn;
    do 2 f_equal; apply map_eq; intros b;
    destruct (decide (agentId request = b)) as [<-|Hne];
    rewrite ?lookup_alter_eq, ?lookup_insert_eq, ?Hagent;
    rewrite ?lookup_alter_ne, ?lookup_insert_ne by done; done.
Qed.

End completion_facts.

Section completion_properties.

Implicit Types (db : DB) (request : VerificationRequest) (now : Z).

Lemma complete_already_completed now (s id name : string) db request :
  first_by_state s db = Some request →
  ¬ now > expiresAt request →
  truthy_number (completedAt request) = true →
  completeVerification now s id name db
  = (CompleteFailure "Verification already completed", db).
Proof.
  intros Hfirst Hlive Hdone. unfold completeVerification. run_mutation.
  rewrite Hfirst, bool_decide_eq_false_2 by done. by rewrite Hdone.
Qed.

Lemma complete_agent_missing now (s id name : string) db request :
  first_by_state s db = Some request →
  ¬ now > expiresAt request →
  truthy_number (completedAt request) = false →
  agents db !! agentId request = None →
  completeVerification now s id name db
  = (CompleteFailure "Agent not found",
     patched (_id request) (fields_error "Agent not found") db).
Proof.
  intros Hfirst Hlive Hopen Hagent. unfold completeVerification. run_mutation.
  rewrite Hfirst, bool_decide_eq_false_2, Hopen by done.
  unfold db_get_agent at 1. by rewrite Hagent.
Qed.

Lemma complete_success_inv now (s id name : string) db a h n db' :
  completeVerification now s id name db = (CompleteSuccess a h n, db') →
  ∃ request agent,
    first_by_state s db = Some request
    ∧ ¬ now > expiresAt request
    ∧ truthy_number (completedAt request) = false
    ∧ agents db !! agentId request = Some agent.
Proof.
  unfold completeVerification. run_mutation.
  destruct (first_by_state s db) as [request|] eqn:Hfirst; [|done].
  case_bool_decide as Hexp; [done|].
  destruct (truthy_number (completedAt request)) eqn:Hdone; [done|].
  unfold db_get_agent at 1.
  destruct (agents db !! agentId request) as [agent|] eqn:Hagent; [|done].
  intros _. by exists request, agent.
Qed.

(** The handlers keep the completion timestamps non-zero as long as the
    clock does not read 0, so the side condition of the two theorems below
    holds in every database that the flow produces. *)
Lemma complete_keeps_stamped now (s id name : string) db :
  now ≠ 0 → completions_stamped db →
  completions_stamped (completeVerification now s id name db).2.
Proof.
  intros Hnow Hdb.
  assert (∀ id' fields,
            (∀ r, completedAt r ≠ Some 0 → completedAt (fields r) ≠ Some 0) →
            completions_stamped (patched id' fields db)) as Hpatch.
  { intros id' fields Hfields. unfold completions_stamped, patched. cbn.
    apply Forall_fmap. eapply Forall_impl; [exact Hdb|]. cbn.
    intros r Hr. case_decide; [by apply Hfields|done]. }
  destruct (first_by_state s db) as [request|] eqn:Hfirst.
  2:{ unfold completeVerification. run_mutation. by rewrite Hfirst. }
  destruct (decide (now > expiresAt request)) as [Hexp|Hlive].
  { unfold completeVerification. run_mutation.
    rewrite Hfirst, bool_decide_eq_true_2 by done. by apply (Hpatch _ (fields_error _)). }
  destruct (truthy_number (completedAt request)) eqn:Hdone.
  { by rewrite (complete_already_completed now s id name db request). }
  destruct (agents db !! agentId request) as [agent|] eqn:Hagent.
  - rewrite (complete_live now s id name db request agent) by done.
    apply (Hpatch _ (fields_completedAt now)). intros r _. cbn. congruence.
  - rewrite (complete_agent_missing now s id name db request) by done.
    by apply (Hpatch _ (fields_error _)).
Qed.

(** C2. A request that is not expired and whose [completedAt] holds a
    timestamp makes [completeVerification] answer "Verification already
    completed" and return the database it was given: no row, no agent and no
    log entry changes. In particular a completion that succeeded at the
    instant [now1] is answered so when it is repeated with the same state
    while the request has not expired. The handler tests [completedAt] for
    truthiness, so the timestamp is taken to be other than 0, as every
    reading of [Date.now()] after the epoch is. *)
Theorem complete_twice_changes_nothing now (s id name : string) db :
  (∀ request t,
      first_by_state s db = Some request →
      ¬ now > expiresAt request →
      completedAt request = Some t → t ≠ 0 →
      completeVerification now s id name db
      = (CompleteFailure "Verification already completed", db))
  ∧ (∀ now1 id1 name1 db0 a h n,
      completeVerification now1 s id1 name1 db0 = (CompleteSuccess a h n, db) →
      now1 ≠ 0 →
      (∀ request, first_by_state s db = Some request → ¬ now > expiresAt request) →
      completeVerification now s id name db
      = (CompleteFailure "Verification already completed", db)).
Proof.
  split.
  - intros request t Hfirst Hlive Ht Hnz.
    apply (complete_already_completed now s id name db request); [done..|].
    rewrite Ht. cbn. by apply negb_true_iff, Z.eqb_neq.
  - intros now1 id1 name1 db0 a h n Hrun Hnz Hlive.
    destruct (complete_success_inv _ _ _ _ _ _ _ _ _ Hrun)
      as (request & agent & Hfirst & Hlive1 & Hopen & Hagent).
    rewrite (complete_live now1 s id1 name1 db0 request agent) in Hrun by done.
    injection Hrun as _ _ _ <-.
    set (db1 := {| agents := _ |}).
    assert (first_by_state s db1 = Some (fields_completedAt now1 request)) as Hfirst1.
    { change (first_by_state s db1)
        with (first_by_state s (patched (_id request) (fields_completedAt now1) db0)).
      rewrite first_by_state_patched, Hfirst by done. cbn.
      by rewrite decide_True. }
    apply (complete_already_completed now s id name db1 _ Hfirst1).
    + by apply Hlive.
    + cbn. by apply negb_true_iff, Z.eqb_neq.
Qed.

(** C3. On a request that the state finds, unexpired and uncompleted, with
    its agent present, [completeVerification] succeeds; afterwards the state
    finds the same row with [completedAt] set to [now], and the agent has
    [verified = true], [verificationType = "linkedin"],
    [verificationTier = "verified"] and the provider identity fields. When
    the agent's tier before the call was not "verified", its
    [inviteCodesRemaining] is the maximum of the old balance (0 when absent)
    and 3 and [canInvite] is true; when it was "verified", both are what
    they were. *)
Theorem complete_verifies_and_grants_invites now (s id name : string) db request agent :
  first_by_state s db = Some request →
  ¬ now > expiresAt request →
  completedAt request = None →
  agents db !! agentId request = Some agent →
  ∃ db' request' agent',
    completeVerification now s id name db
    = (CompleteSuccess (agentId request) (handle agent) name, db')
    ∧ first_by_state s db' = Some request'
    ∧ _id request' = _id request
    ∧ completedAt request' = Some now
    ∧ agents db' !! agentId request = Some agent'
    ∧ verified agent' = true
    ∧ verificationType agent' = "linkedin"
    ∧ verificationTier agent' = Some "verified"
    ∧ verificationData agent' = Some id
    ∧ linkedinId agent' = Some id
    ∧ linkedinName agent' = Some name
    ∧ linkedinVerifiedAt agent' = Some now
    ∧ (verificationTier agent ≠ Some "verified" →
       inviteCodesRemaining agent'
       = Some (Z.max (default 0 (inviteCodesRemaining agent)) 3)
       ∧ canInvite agent' = true)
    ∧ (verificationTier agent = Some "verified" →
       inviteCodesRemaining agent' = inviteCodesRemaining agent
       ∧ canInvite agent' = canInvite agent).
Proof.
  intros Hfirst Hlive Hopen Hagent.
  eexists _, (fields_completedAt now request), (completed_agent agent id name now).
  split; [apply complete_live; try done; by rewrite Hopen|].
  split.
  { match goal with |- first_by_state s ?d = _ =>
      change (first_by_state s d)
        with (first_by_state s (patched (_id request) (fields_completedAt now) db)) end.
    rewrite first_by_state_patched, Hfirst by done. cbn. by rewrite decide_True. }
  do 2 (split; [done|]).
  split; [cbn; apply lookup_insert_eq|].
  unfold completed_agent.
  case_bool_decide as Htier; cbn; repeat split; try done; by intros ?.
Qed.

(** C4. [validateState] reads the database and decides, the first match
    winning: no row with the state (as for a state never issued) gives
    "Invalid or expired state token"; [now > expiresAt] gives "Verification
    request expired"; a [completedAt] timestamp gives "Verification already
    completed"; a missing agent gives "Agent not found"; otherwise the state
    is valid with the request's [agentId]. Run inside a transaction it
    leaves the database as it is. The test of [completedAt] is for
    truthiness, so its timestamp is taken to be other than 0. *)
Theorem validate_decides_in_order now (s : string) db :
  (read (validateState now s) db).2 = db
  ∧ (first_by_state s db = None →
     validateState now s db = StateInvalid "Invalid or expired state token")
  ∧ (never_issued s db →
     validateState now s db = StateInvalid "Invalid or expired state token")
  ∧ (∀ request,
      first_by_state s db = Some request →
      (now > expiresAt request →
       validateState now s db = StateInvalid "Verification request expired")
      ∧ (¬ now > expiresAt request →
         ∀ t, completedAt request = Some t → t ≠ 0 →
         validateState now s db = StateInvalid "Verification already completed")
      ∧ (¬ now > expiresAt request →
         completedAt request = None →
         agents db !! agentId request = None →
         validateState now s db = StateInvalid "Agent not found")
      ∧ (¬ now > expiresAt request →
         completedAt request = None →
         is_Some (agents db !! agentId request) →
         validateState now s db = StateValid (agentId request))).
Proof.
  split; [done|]. split; [|split].
  - intros Hnone. unfold validateState. by rewrite Hnone.
  - intros Hnever. unfold validateState. by rewrite never_issued_first.
  - intros request Hfirst. unfold validateState, db_get_agent. rewrite Hfirst.
    repeat split.
    + intros Hexp. by rewrite bool_decide_eq_true_2.
    + intros Hlive t Ht Hnz. rewrite bool_decide_eq_false_2, Ht by done. cbn.
      by rewrite (proj2 (Z.eqb_neq t 0)).
    + intros Hlive Hopen Hagent.
      by rewrite bool_decide_eq_false_2, Hopen, Hagent.
    + intros Hlive Hopen [agent Hagent].
      by rewrite bool_decide_eq_false_2, Hopen, Hagent.
Qed.

(** C5. When [now] is past the [expiresAt] of the request that the state
    finds, [validateState] and [completeVerification] both answer
    "Verification request expired". The completer patches the request with
    the error "State token expired": the state then finds that row with the
    error on it, no row's [completedAt] has changed, and the agents and the
    log are as before. The validator changes nothing. *)
Theorem expired_request_is_rejected now (s id name : string) db request :
  first_by_state s db = Some request →
  now > expiresAt request →
  validateState now s db = StateInvalid "Verification request expired"
  ∧ (read (validateState now s) db).2 = db
  ∧ ∃ db' request',
      completeVerification now s id name db
      = (CompleteFailure "Verification request expired", db')
      ∧ db' = patched (_id request) (fields_error "State token expired") db
      ∧ first_by_state s db' = Some request'
      ∧ _id request' = _id request
      ∧ error request' = Some "State token expired"
      ∧ completedAt request' = completedAt request
      ∧ completedAt <$> linkedinVerificationRequests db'
        = completedAt <$> linkedinVerificationRequests db
      ∧ agents db' = agents db
      ∧ activityLog db' = activityLog db.
Proof.
  intros Hfirst Hexp. split; [|split; [done|]].
  { unfold validateState. by rewrite Hfirst, bool_decide_eq_true_2. }
  exists (patched (_id request) (fields_error "State token expired") db),
         (fields_error "State token expired" request).
  split.
  { unfold completeVerification. run_mutation.
    by rewrite Hfirst, bool_decide_eq_true_2. }
  split; [done|]. split.
  { rewrite first_by_state_patched, Hfirst by done. cbn. by rewrite decide_True. }
  do 3 (split; [done|]). split; [|done].
  unfold patched. cbn. rewrite <-list_fmap_compose. apply list_fmap_ext.
  intros i r _. cbn. by case_decide.
Qed.

(** C10. At the instant [now = expiresAt] neither the validator nor the
    completer answers "expired"; on an uncompleted request with its agent
    present the validator answers valid and the completer succeeds and sets
    [completedAt] to that instant. *)
Theorem expiry_is_strict now (s id name : string) db request :
  first_by_state s db = Some request →
  now = expiresAt request →
  validateState now s db ≠ StateInvalid "Verification request expired"
  ∧ (completeVerification now s id name db).1
    ≠ CompleteFailure "Verification request expired"
  ∧ (∀ agent,
      completedAt request = None →
      agents db !! agentId request = Some agent →
      validateState now s db = StateValid (agentId request)
      ∧ (completeVerification now s id name db).1
        = CompleteSuccess (agentId request) (handle agent) name
      ∧ first_by_state s (completeVerification now s id name db).2
        = Some (fields_completedAt now request)).
Proof.
  intros Hfirst ->.
  assert (¬ expiresAt request > expiresAt request) as Hlive by lia.
  split; [|split].
  - unfold validateState, db_get_agent.
    rewrite Hfirst, bool_decide_eq_false_2 by done.
    destruct (truthy_number _); [done|]. by destruct (agents db !! _).
  - destruct (truthy_number (completedAt request)) eqn:Hdone.
    { by rewrite (complete_already_completed _ s id name db request). }
    destruct (agents db !! agentId request) as [agent|] eqn:Hagent.
    { by rewrite (complete_live _ s id name db request agent). }
    by rewrite (complete_agent_missing _ s id name db request).
  - intros agent Hopen Hagent. split; [|split].
    + unfold validateState, db_get_agent.
      by rewrite Hfirst, bool_decide_eq_false_2, Hopen, Hagent.
    + rewrite (complete_live _ s id name db request agent); try done.
      by rewrite Hopen.
    + rewrite (complete_live _ s id name db request agent); try done;
        [|by rewrite Hopen].
      cbn [snd].
      match goal with |- first_by_state s ?d = _ =>
        change (first_by_state s d)
          with (first_by_state s
                  (patched (_id request) (fields_completedAt (expiresAt request)) db)) end.
      rewrite first_by_state_patched, Hfirst by done. cbn. by rewrite decide_True.
Qed.

End completion_properties.

(** *** Worked instances on [fixtures.db_open] *)

(** Comparisons of concrete timestamps. *)
Ltac clock := unfold fixtures.request_of, STATE_EXPIRATION_MS; cbn; lia.

(** The completed request of agent 2 is presented again; and the open
    request of agent 1 is completed twice. *)
Lemma complete_twice_changes_nothing_witness :
  completeVerification 9000 "stateB" "abc123" "Jane Doe" fixtures.db_open
  = (CompleteFailure "Verification already completed", fixtures.db_open)
  ∧ let db1 := (completeVerification 9000 "stateA" "abc123" "Jane Doe" fixtures.db_open).2 in
    completeVerification 9400 "stateA" "abc123" "Jane Doe" db1
    = (CompleteFailure "Verification already completed", db1).
Proof.
  split.
  - apply (proj1 (complete_twice_changes_nothing 9000 "stateB" "abc123" "Jane Doe"
                    fixtures.db_open)
             (fixtures.request_of 2 2 "stateB" 6000 (Some 7000)) 7000).
    + reflexivity.
    + clock.
    + reflexivity.
    + lia.
  - cbv zeta.
    apply (proj2 (complete_twice_changes_nothing 9400 "stateA" "abc123" "Jane Doe" _)
             9000 "abc123" "Jane Doe" fixtures.db_open 1%positive "claw" "Jane Doe").
    + vm_compute. reflexivity.
    + lia.
    + intros request Hfirst. vm_compute in Hfirst.
      injection Hfirst as <-. clock.
Defined.

(** Agent 1, not on the verified tier and holding one code, is verified and
    ends with three codes. *)
Lemma complete_verifies_and_grants_invites_witness :
  ∃ db' agent',
    completeVerification 9000 "stateA" "abc123" "Jane Doe" fixtures.db_open
    = (CompleteSuccess 1 "claw" "Jane Doe", db')
    ∧ agents db' !! 1%positive = Some agent'
    ∧ verificationTier agent' = Some "verified"
    ∧ inviteCodesRemaining agent' = Some 3
    ∧ canInvite agent' = true.
Proof.
  destruct (complete_verifies_and_grants_invites 9000 "stateA" "abc123" "Jane Doe"
              fixtures.db_open (fixtures.request_of 1 1 "stateA" 5000 None)
              fixtures.agent_plain)
    as (db' & request' & agent' & Hrun & _ & _ & _ & Hagent & _ & _ & Htier
        & _ & _ & _ & _ & Hnew & _).
  - reflexivity.
  - clock.
  - reflexivity.
  - reflexivity.
  - exists db', agent'. repeat split; try done; by apply Hnew.
Defined.

(** The three requests of the table and a state that no row carries. *)
Lemma validate_decides_in_order_witness :
  validateState 9000 "stateB" fixtures.db_open
  = StateInvalid "Verification already completed"
  ∧ validateState 9000 "stateA" fixtures.db_open = StateValid 1
  ∧ validateState 9000 "stateZ" fixtures.db_open
    = StateInvalid "Invalid or expired state token".
Proof.
  pose proof (validate_decides_in_order 9000 "stateB" fixtures.db_open) as (_ & _ & _ & HB).
  pose proof (validate_decides_in_order 9000 "stateA" fixtures.db_open) as (_ & _ & _ & HA).
  pose proof (validate_decides_in_order 9000 "stateZ" fixtures.db_open) as (_ & _ & HZ & _).
  split; [|split].
  - apply (proj1 (proj2 (HB (fixtures.request_of 2 2 "stateB" 6000 (Some 7000)) eq_refl)))
      with (t := 7000); [clock|reflexivity|lia].
  - apply (proj2 (proj2 (proj2 (HA (fixtures.request_of 1 1 "stateA" 5000 None) eq_refl))));
      [clock|reflexivity|].
    exists fixtures.agent_plain. reflexivity.
  - apply HZ. unfold never_issued. cbn. repeat constructor; cbn; discriminate.
Defined.

(** One millisecond after the expiry of agent 1's request. *)
Lemma expired_request_is_rejected_witness :
  validateState 905001 "stateA" fixtures.db_open
  = StateInvalid "Verification request expired"
  ∧ (completeVerification 905001 "stateA" "abc123" "Jane Doe" fixtures.db_open).1
    = CompleteFailure "Verification request expired".
Proof.
  destruct (expired_request_is_rejected 905001 "stateA" "abc123" "Jane Doe"
              fixtures.db_open (fixtures.request_of 1 1 "stateA" 5000 None))
    as (Hvalidate & _ & db' & request' & Hrun & _).
  - reflexivity.
  - clock.
  - split; [exact Hvalidate|]. by rewrite Hrun.
Defined.

(** At the very instant of the expiry of agent 1's request. *)
Lemma expiry_is_strict_witness :
  validateState 905000 "stateA" fixtures.db_open = StateValid 1
  ∧ (completeVerification 905000 "stateA" "abc123" "Jane Doe" fixtures.db_open).1
    = CompleteSuccess 1 "claw" "Jane Doe".
Proof.
  destruct (expiry_is_strict 905000 "stateA" "abc123" "Jane Doe"
              fixtures.db_open (fixtures.request_of 1 1 "stateA" 5000 None))
    as (_ & _ & Hlive).
  - reflexivity.
  - reflexivity.
  - destruct (Hlive fixtures.agent_plain) as (Hvalidate & Hrun & _);
      [reflexivity|reflexivity|]. by split.
Defined.

(** ** The state token and the authorization URL *)
Section token_facts.

Lemma length_append (a b : string) :
  String.length (a +:+ b) = (String.length a + String.length b)%nat.
Proof. induction a as [|c a IH]; simpl; [done|]. by rewrite IH. Qed.

Lemma list_ascii_of_append (a b : string) :
  list_ascii_of_string (a +:+ b)
  = (list_ascii_of_string a ++ list_ascii_of_string b)%list.
Proof. induction a as [|c a IH]; simpl; [done|]. by rewrite IH. Qed.

Lemma append_assoc (a b c : string) : (a +:+ b) +:+ c = a +:+ (b +:+ c).
Proof.
  induction a as [|x a IH]; [done|].
  change (String x ((a +:+ b) +:+ c) = String x (a +:+ (b +:+ c))).
  by rewrite IH.
Qed.

Lemma get_in_range (s : string) (n : nat) :
  (n < String.length s)%nat →
  ∃ c, String.get n s = Some c ∧ c ∈ list_ascii_of_string s.
Proof.
  revert n. induction s as [|x s IH]; intros n Hn; cbn in Hn; [lia|].
  destruct n as [|n]; cbn.
  - exists x. split; [done|]. left.
  - destruct (IH n) as (c & Hget & Hin); [lia|].
    exists c. split; [done|]. by right.
Qed.

(** Every character of the alphabet is a letter or a digit. *)
Lemma chars_alnum :
  Forall (λ c, is_alnum c = true) (list_ascii_of_string chars).
Proof. apply Forall_forall. intros c Hc. vm_compute in Hc.
  repeat (apply elem_of_cons in Hc as [->|Hc]; [reflexivity|]).
  by apply elem_of_nil in Hc.
Qed.

(** One step of the loop appends one character of the alphabet. *)
Lemma alphabet_char (n : nat) :
  ∃ c, charAt chars (n `mod` String.length chars)%nat = String c EmptyString
       ∧ c ∈ list_ascii_of_string chars.
Proof.
  destruct (get_in_range chars (n `mod` String.length chars)%nat) as (c & Hget & Hin).
  { apply Nat.mod_upper_bound. by vm_compute. }
  exists c. unfold charAt. by rewrite Hget.
Qed.

Lemma token_loop (randomValues : list byte) (indices : list nat) (result : string) :
  let token :=
    foldl (λ result i,
             result +:+ charAt chars (uint8_at randomValues i `mod` String.length chars)%nat)
          result indices in
  String.length token = (String.length result + length indices)%nat
  ∧ (Forall (λ c, c ∈ list_ascii_of_string chars) (list_ascii_of_string result) →
     Forall (λ c, c ∈ list_ascii_of_string chars) (list_ascii_of_string token)).
Proof.
  revert result. induction indices as [|i indices IH]; intros result; cbn zeta.
  - cbn. split; [lia|done].
  - cbn [foldl length].
    destruct (alphabet_char (uint8_at randomValues i)) as (c & -> & Hc).
    destruct (IH (result +:+ String c EmptyString)) as [Hlen Hall]. cbn zeta in *.
    split.
    + rewrite Hlen, length_append. cbn. lia.
    + intros Hresult. apply Hall.
      rewrite list_ascii_of_append. apply Forall_app. split; [done|].
      cbn. by apply Forall_singleton.
Qed.

(** The serializer leaves letters and digits as they are. *)
Lemma urlencode_alnum (s : string) :
  Forall (λ c, is_alnum c = true) (list_ascii_of_string s) → urlencode s = s.
Proof.
  induction s as [|c s IH]; cbn; [done|].
  intros [Hc Hs]%Forall_cons. rewrite IH by done.
  unfold urlencode_byte, urlencoded_keeps. rewrite Hc. cbn.
  destruct (Ascii.eqb_spec c " ") as [->|_]; [by vm_compute in Hc|done].
Qed.

Lemma decode_head_encode (c : ascii) (r : string) :
  decode_head (urlencode_byte c +:+ r) = Some (c, r).
Proof. destruct c as [[] [] [] [] [] [] [] []]; reflexivity. Qed.

(** The serializer is injective: the encoded value determines the value. *)
Lemma urlencode_inj (s1 s2 : string) : urlencode s1 = urlencode s2 → s1 = s2.
Proof.
  revert s2. induction s1 as [|c1 s1 IH]; intros [|c2 s2] Heq; [done| | |].
  - apply (f_equal decode_head) in Heq. cbn [urlencode] in Heq.
    by rewrite decode_head_encode in Heq.
  - apply (f_equal decode_head) in Heq. cbn [urlencode] in Heq.
    by rewrite decode_head_encode in Heq.
  - apply (f_equal decode_head) in Heq. cbn [urlencode] in Heq.
    rewrite !decode_head_encode in Heq. injection Heq as -> Heq.
    f_equal. by apply IH.
Qed.

(** The URL, written out. *)
Lemma buildLinkedInAuthUrl_shape (clientId redirectUri state : string) :
  buildLinkedInAuthUrl clientId redirectUri state
  = LINKEDIN_AUTH_URL +:+ "?response_type=code&client_id=" +:+ urlencode clientId
    +:+ "&redirect_uri=" +:+ urlencode redirectUri
    +:+ "&state=" +:+ urlencode state
    +:+ "&scope=openid+profile+email".
Proof.
  unfold buildLinkedInAuthUrl, URLSearchParams_toString, join, LINKEDIN_SCOPES.
  cbn [fmap list_fmap String.concat fst snd].
  rewrite !append_assoc. reflexivity.
Qed.

Lemma urlencode_byte_no_amp (c : ascii) : no_amp (urlencode_byte c) = true.
Proof. destruct c as [[] [] [] [] [] [] [] []]; reflexivity. Qed.

Lemma urlencode_no_amp (s : string) : no_amp (urlencode s) = true.
Proof.
  induction s as [|c s IH]; [done|].
  pose proof (urlencode_byte_no_amp c) as Hc.
  unfold no_amp in *. cbn [urlencode].
  by rewrite list_ascii_of_append, forallb_app, IH, Hc.
Qed.

(** Two strings without [&], each followed by [&] and a rest, are equal
    only when the strings and the rests are. *)
Lemma split_at_amp (a a' x x' : string) :
  no_amp a = true → no_amp a' = true →
  a +:+ String "&" x = a' +:+ String "&" x' → a = a' ∧ x = x'.
Proof.
  revert a'. induction a as [|c a IH]; intros [|c' a']; unfold no_amp; cbn.
  - by intros _ _ [= ->].
  - intros _ [Hc _]%andb_true_iff [= <- _]. done.
  - intros [Hc _]%andb_true_iff _ [= -> _]. done.
  - intros [_ Ha]%andb_true_iff [_ Ha']%andb_true_iff [= -> Heq].
    destruct (IH a' Ha Ha' Heq) as [-> ->]. done.
Qed.

(** The URL determines the client id, the redirect URI and the state it
    was built from. *)
Lemma buildLinkedInAuthUrl_inj (clientId redirectUri state clientId' redirectUri' state' : string) :
  buildLinkedInAuthUrl clientId redirectUri state
  = buildLinkedInAuthUrl clientId' redirectUri' state' →
  clientId = clientId' ∧ redirectUri = redirectUri' ∧ state = state'.
Proof.
  rewrite !buildLinkedInAuthUrl_shape. intros Heq.
  apply (inj (String.app _)), (inj (String.app _)) in Heq.
  apply split_at_amp in Heq as [Hid Heq]; [|apply urlencode_no_amp..].
  apply (inj (String.app "redirect_uri=")) in Heq.
  apply split_at_amp in Heq as [Huri Heq]; [|apply urlencode_no_amp..].
  apply (inj (String.app "state=")) in Heq.
  apply split_at_amp in Heq as [Hstate _]; [|apply urlencode_no_amp..].
  by rewrite (urlencode_inj _ _ Hid), (urlencode_inj _ _ Huri), (urlencode_inj _ _ Hstate).
Qed.

End token_facts.

Section start_results.
Variable verifyApiKey : string → Query (option positive).

Lemma truthy_string_Some (x : option string) :
  truthy_string x = true → ∃ s, x = Some s ∧ default "" x = s.
Proof. destruct x as [s|]; [|done]. intros _. by exists s. Qed.

(** C9. From 32 random bytes [generateOAuthState] makes a token of
    exactly 32 characters, each a character of the alphabet and so a letter
    or a digit. A successful start returns [expiresIn = 900] and the URL
    that [buildLinkedInAuthUrl] makes of the configured client id, the
    configured redirect URI and that token, and the token is the [state] of
    the row it stored: the URL is the authorization endpoint followed by the
    form-encoded client id and redirect URI, the token as it is, and the
    scopes [openid profile email] joined by [+]. [buildLinkedInAuthUrl] is a
    function of its three arguments alone, and the URL determines them. *)
Theorem start_returns_token_in_url :
  (∀ randomValues : list byte,
      length randomValues = 32%nat →
      String.length (generateOAuthState randomValues) = 32%nat
      ∧ Forall (λ c, c ∈ list_ascii_of_string chars ∧ is_alnum c = true)
               (list_ascii_of_string (generateOAuthState randomValues)))
  ∧ (∀ env (randomValues : list byte) now apiKey db url e msg db',
      length randomValues = 32%nat →
      startVerification verifyApiKey env randomValues now apiKey db
        = (StartSuccess url e msg, db') →
      e = 900
      ∧ ∃ a clientId redirectUri,
          LINKEDIN_CLIENT_ID env = Some clientId
          ∧ LINKEDIN_REDIRECT_URI env = Some redirectUri
          ∧ url = buildLinkedInAuthUrl clientId redirectUri
                    (generateOAuthState randomValues)
          ∧ url = LINKEDIN_AUTH_URL
                  +:+ "?response_type=code&client_id=" +:+ urlencode clientId
                  +:+ "&redirect_uri=" +:+ urlencode redirectUri
                  +:+ "&state=" +:+ generateOAuthState randomValues
                  +:+ "&scope=openid+profile+email"
          ∧ last (linkedinVerificationRequests db')
            = Some (started_request db a randomValues now))
  ∧ (∀ clientId redirectUri state clientId' redirectUri' state',
      buildLinkedInAuthUrl clientId redirectUri state
      = buildLinkedInAuthUrl clientId' redirectUri' state' →
      clientId = clientId' ∧ redirectUri = redirectUri' ∧ state = state').
Proof.
  assert (∀ randomValues : list byte,
            String.length (generateOAuthState randomValues) = 32%nat
            ∧ Forall (λ c, c ∈ list_ascii_of_string chars ∧ is_alnum c = true)
                (list_ascii_of_string (generateOAuthState randomValues))) as Htoken.
  { intros randomValues.
    destruct (token_loop randomValues (seq 0 32) EmptyString) as [Hlen Hall].
    cbn zeta in *. split; [exact Hlen|].
    eapply Forall_impl; [apply Hall; constructor|].
    intros c Hc. split; [done|].
    by apply (proj1 (Forall_forall _ _) chars_alnum). }
  split; [intros randomValues _; apply Htoken|].
  split; [|apply buildLinkedInAuthUrl_inj].
  intros env randomValues now apiKey db url e msg db' _ Hrun.
  apply start_success_inv in Hrun
    as (a & agent & _ & _ & _ & Hid & _ & Huri & -> & -> & ->).
  split; [done|].
  apply truthy_string_Some in Hid as (clientId & Hid & ->).
  apply truthy_string_Some in Huri as (redirectUri & Huri & ->).
  exists a, clientId, redirectUri.
  split; [done|]. split; [done|]. split; [done|]. split.
  - rewrite buildLinkedInAuthUrl_shape.
    rewrite (urlencode_alnum (generateOAuthState randomValues)); [done|].
    eapply Forall_impl; [apply Htoken|]. by intros c [_ Hc].
  - cbn [linkedinVerificationRequests]. apply last_snoc.
Qed.

Lemma lacks_setting_falsy (env : ProcessEnv) :
  lacks_setting env →
  negb (truthy_string (LINKEDIN_CLIENT_ID env))
  || negb (truthy_string (LINKEDIN_CLIENT_SECRET env))
  || negb (truthy_string (LINKEDIN_REDIRECT_URI env)) = true.
Proof.
  intros [->| [->| ->]]; cbn; [done| |];
    repeat (destruct (truthy_string _); cbn; try done).
Qed.

(** C8, as the code has it. Each failure of [startVerification] is a
    result [StartFailure] and the database is returned as it was: an
    unresolved key, a missing agent, an agent already verified through
    LinkedIn and an absent provider setting give their four messages, the
    checks being made in this order. When a provider setting is absent the
    start fails and creates nothing, whatever the key; its message is the
    not-configured one when the key resolves to an existing agent that is
    not already verified through LinkedIn. *)
Theorem start_failures_are_results env randomValues now apiKey db :
  (verifyApiKey apiKey db = None →
   startVerification verifyApiKey env randomValues now apiKey db
   = (StartFailure "Invalid API key", db))
  ∧ (∀ a, verifyApiKey apiKey db = Some a →
      (agents db !! a = None →
       startVerification verifyApiKey env randomValues now apiKey db
       = (StartFailure "Agent not found", db))
      ∧ (∀ agent, agents db !! a = Some agent →
          (verificationType agent = "linkedin" → verified agent = true →
           startVerification verifyApiKey env randomValues now apiKey db
           = (StartFailure "Agent is already LinkedIn verified", db))
          ∧ (¬ (verificationType agent = "linkedin" ∧ verified agent = true) →
             lacks_setting env →
             startVerification verifyApiKey env randomValues now apiKey db
             = (StartFailure "LinkedIn OAuth not configured. Please set LINKEDIN_CLIENT_ID, LINKEDIN_CLIENT_SECRET, and LINKEDIN_REDIRECT_URI.", db))))
  ∧ (lacks_setting env →
     ∃ err, startVerification verifyApiKey env randomValues now apiKey db
            = (StartFailure err, db)).
Proof.
  unfold startVerification. run_mutation. unfold db_get_agent.
  split; [|split].
  - by intros ->.
  - intros a ->. split; [by intros ->|].
    intros agent ->. split.
    + intros Htype Hverified.
      by rewrite bool_decide_eq_true_2, Hverified.
    + intros Hnot Hlacks.
      replace (bool_decide (verificationType agent = "linkedin") && verified agent)
        with false.
      * by rewrite lacks_setting_falsy.
      * symmetry. apply andb_false_iff.
        destruct (verified agent); [left|by right].
        apply bool_decide_eq_false_2. tauto.
  - intros Hlacks.
    destruct (verifyApiKey apiKey db) as [a|]; [|by eexists].
    destruct (agents db !! a) as [agent|]; [|by eexists].
    destruct (bool_decide _ && verified agent); [by eexists|].
    rewrite lacks_setting_falsy by done. by eexists.
Qed.

End start_results.

(** A start on [fixtures.db_open] for agent 2. *)
Lemma start_returns_token_in_url_witness :
  (startVerification fixtures.two_keys fixtures.env_ok fixtures.bytes32 9000
     "key-2" fixtures.db_open).1
  = StartSuccess
      "https://www.linkedin.com/oauth/v2/authorization?response_type=code&client_id=client-1&redirect_uri=https%3A%2F%2Flinkclaws.example%2Fcb&state=66666666666666666666666666666666&scope=openid+profile+email"
      900 "Have the agent owner visit this URL to complete LinkedIn verification".
Proof.
  destruct (startVerification fixtures.two_keys fixtures.env_ok fixtures.bytes32
              9000 "key-2" fixtures.db_open) as [[url e msg|err] db'] eqn:Hrun;
    [|by vm_compute in Hrun].
  destruct (proj1 (proj2 (start_returns_token_in_url fixtures.two_keys))
              fixtures.env_ok fixtures.bytes32 9000 "key-2" fixtures.db_open
              url e msg db' eq_refl Hrun)
    as (-> & a & clientId & redirectUri & Hid & Huri & _ & -> & _).
  injection Hid as <-. injection Huri as <-.
  vm_compute in Hrun. injection Hrun as <- _. reflexivity.
Defined.

(** An unknown key and no client secret: the message is that of the key. *)
Lemma start_without_setting_reports_key :
  ¬ (∀ (verifyApiKey : string → Query (option positive)) env randomValues now apiKey db,
       lacks_setting env →
       (startVerification verifyApiKey env randomValues now apiKey db).1
       = StartFailure "LinkedIn OAuth not configured. Please set LINKEDIN_CLIENT_ID, LINKEDIN_CLIENT_SECRET, and LINKEDIN_REDIRECT_URI.").
Proof.
  intros Hall.
  specialize (Hall fixtures.two_keys fixtures.env_no_secret fixtures.bytes32 9000
                "no-such-key" fixtures.db_open (or_intror (or_introl eq_refl))).
  vm_compute in Hall. discriminate Hall.
Qed.

(** Agent 1 starts while the client secret is absent. *)
Lemma start_failures_are_results_witness :
  startVerification fixtures.two_keys fixtures.env_no_secret fixtures.bytes32 9000
    "key-1" fixtures.db_open
  = (StartFailure "LinkedIn OAuth not configured. Please set LINKEDIN_CLIENT_ID, LINKEDIN_CLIENT_SECRET, and LINKEDIN_REDIRECT_URI.",
     fixtures.db_open).
Proof.
  refine (proj2 (proj2 (proj1 (proj2
            (start_failures_are_results fixtures.two_keys fixtures.env_no_secret
               fixtures.bytes32 9000 "key-1" fixtures.db_open))
            1%positive eq_refl) fixtures.agent_plain eq_refl) _ _).
  - intros [Htype _]. discriminate Htype.
  - right. left. reflexivity.
Defined.

(** ** The status query *)
Section status_facts.
Variable verifyApiKey : string → Query (option positive).

(** C7, as the code has it. [getVerificationStatus] answers
    [{pending: false, verified: false}] for a key that resolves to no
    existing agent. For an agent it first tests
    [verificationType = "linkedin"] together with the [verified] flag, and
    when both hold it reports [verified: true] with the LinkedIn id, name
    and time. Otherwise it reports [verified: false], and [pending: true]
    exactly when the agent has a request with [completedAt] undefined and
    [expiresAt] greater than [now]; [pendingExpiresAt] is then the
    [expiresAt] of the earliest such request, and without such a request the
    answer is [{pending: false, verified: false}]. *)
Theorem status_checks_linkedin_then_pending now (apiKey : string) (db : DB) :
  (verifyApiKey apiKey db = None →
   getVerificationStatus verifyApiKey now apiKey db = status_none)
  ∧ (∀ a, verifyApiKey apiKey db = Some a →
      (agents db !! a = None →
       getVerificationStatus verifyApiKey now apiKey db = status_none)
      ∧ (∀ agent, agents db !! a = Some agent →
          (verificationType agent = "linkedin" → verified agent = true →
           getVerificationStatus verifyApiKey now apiKey db
           = {| pending := false; status_verified := true;
                status_verificationType := Some "linkedin";
                status_linkedinId := linkedinId agent;
                status_linkedinName := linkedinName agent;
                verifiedAt := linkedinVerifiedAt agent;
                pendingExpiresAt := None |})
          ∧ (¬ (verificationType agent = "linkedin" ∧ verified agent = true) →
             status_verified (getVerificationStatus verifyApiKey now apiKey db) = false
             ∧ (pending (getVerificationStatus verifyApiKey now apiKey db) = true
                ↔ ∃ r, r ∈ linkedinVerificationRequests db
                       ∧ agentId r = a ∧ completedAt r = None ∧ expiresAt r > now)
             ∧ (∀ r, head (filter (pending_at now a) (linkedinVerificationRequests db))
                     = Some r →
                getVerificationStatus verifyApiKey now apiKey db
                = {| pending := true; status_verified := false;
                     status_verificationType := None;
                     status_linkedinId := None;
                     status_linkedinName := None;
                     verifiedAt := None;
                     pendingExpiresAt := Some (expiresAt r) |})
             ∧ ((¬ ∃ r, r ∈ linkedinVerificationRequests db
                        ∧ agentId r = a ∧ completedAt r = None ∧ expiresAt r > now) →
                getVerificationStatus verifyApiKey now apiKey db = status_none)))).
Proof.
  unfold getVerificationStatus, db_get_agent. split.
  { by intros ->. }
  intros a ->. split; [by intros ->|]. intros agent ->. split.
  { intros Htype Hverified. by rewrite bool_decide_eq_true_2, Hverified. }
  intros Hnot.
  replace (bool_decide (verificationType agent = "linkedin") && verified agent)
    with false.
  2:{ symmetry. apply andb_false_iff.
      destruct (verified agent); [left|by right].
      apply bool_decide_eq_false_2. tauto. }
  destruct (head (filter (pending_at now a) (linkedinVerificationRequests db)))
    as [r|] eqn:Hhead.
  - assert (∃ r, r ∈ linkedinVerificationRequests db
                 ∧ agentId r = a ∧ completedAt r = None ∧ expiresAt r > now) as Hex.
    { exists r. apply head_Some_elem_of, list_elem_of_filter in Hhead.
      unfold pending_at, uncompleted_of in Hhead. tauto. }
    split; [done|]. split; [done|]. split; [by intros ? [= <-]|].
    by intros [].
  - split; [done|]. split; [|split; [done|done]].
    split; [done|]. intros (r & Hr & Ha & Hopen & Hexp). exfalso.
    apply head_None in Hhead.
    assert (r ∈ filter (pending_at now a) (linkedinVerificationRequests db)) as Hin.
    { apply list_elem_of_filter. unfold pending_at, uncompleted_of. tauto. }
    rewrite Hhead in Hin. by apply elem_of_nil in Hin.
Qed.

End status_facts.

(** Agent 2 is verified by e-mail: its [verified] flag is set, and the
    status query reports [verified: false]. *)
Lemma status_of_email_verified_agent :
  ¬ (∀ (verifyApiKey : string → Query (option positive)) now apiKey db a agent,
       verifyApiKey apiKey db = Some a →
       agents db !! a = Some agent →
       verified agent = true →
       status_verified (getVerificationStatus verifyApiKey now apiKey db) = true).
Proof.
  intros Hall.
  specialize (Hall fixtures.two_keys 9000 "key-2" fixtures.db_open 2%positive
                fixtures.agent_email eq_refl eq_refl eq_refl).
  vm_compute in Hall. discriminate Hall.
Qed.

(** Agent 2 on [fixtures.db_open]: its open request is reported. *)
Lemma status_checks_linkedin_then_pending_witness :
  getVerificationStatus fixtures.two_keys 9000 "key-2" fixtures.db_open
  = {| pending := true; status_verified := false;
       status_verificationType := None; status_linkedinId := None;
       status_linkedinName := None; verifiedAt := None;
       pendingExpiresAt := Some 908000 |}.
Proof.
  refine (proj1 (proj2 (proj2 (proj2 (proj2 (proj2
            (status_checks_linkedin_then_pending fixtures.two_keys 9000 "key-2"
               fixtures.db_open) 2%positive eq_refl) fixtures.agent_email eq_refl) _)))
            (fixtures.request_of 3 2 "stateC" 8000 None) eq_refl).
  intros [Htype _]. discriminate Htype.
Defined.

(** ** The orchestrating action *)
Section action_facts.

Implicit Types (w : World) (net : Network) (env : ProcessEnv).

Ltac run_async :=
  cbv beta iota zeta delta
    [mbind mret Async_bind Async_ret try_catch settle throw emit runQuery
     runMutation transaction invoked] in *;
  cbn [fst snd negb world_db world_events] in *.

(** The token exchange client only fetches: one request when the token
    request fails, two otherwise; it writes nothing. *)
Lemma exchange_only_fetches net (code clientId clientSecret redirectUri : string) w :
  ∃ outcome fetches,
    completeLinkedInOAuth (fetch_post net) (fetch_get net)
      code clientId clientSecret redirectUri w
    = (outcome, invoked w fetches)
    ∧ Forall is_fetch fetches
    ∧ (length fetches ≤ 2)%nat
    ∧ (∀ profile, outcome = Returned profile → length fetches = 2%nat).
Proof.
  unfold completeLinkedInOAuth, exchangeCodeForToken, fetchLinkedInProfile,
    fetch_post, fetch_get.
  run_async.
  set (body := URLSearchParams_toString _).
  assert (is_fetch (Fetch LINKEDIN_TOKEN_URL body)) as Hfetch1 by (by eexists _, _).
  assert (∀ (o : Outcome LinkedInProfile) (fetches : list Event),
            Forall is_fetch fetches →
            (length fetches ≤ 2)%nat →
            (∀ profile, o = Returned profile → length fetches = 2%nat) →
            ∃ (outcome : Outcome LinkedInProfile) (fetches' : list Event),
              (o, {| world_db := world_db w;
                     world_events := (world_events w ++ fetches)%list |})
              = (outcome,
                 {| world_db := world_db w;
                    world_events := (world_events w ++ fetches')%list |})
              ∧ Forall is_fetch fetches' ∧ (length fetches' ≤ 2)%nat
              ∧ (∀ profile, outcome = Returned profile → length fetches' = 2%nat))
    as Hends by (intros o fetches ???; by exists o, fetches).
  destruct (answer_post net LINKEDIN_TOKEN_URL body) as [response|t]; run_async;
    [|apply Hends; [by constructor|cbn; lia|done]].
  destruct (ok response); run_async.
  2:{ destruct (text response) as [errorText|t];
        (apply Hends; [by constructor|cbn; lia|done]). }
  destruct (json response) as [tokenResponse|t];
    [|apply Hends; [by constructor|cbn; lia|done]].
  set (auth := "Bearer " +:+ access_token tokenResponse).
  assert (is_fetch (Fetch LINKEDIN_USERINFO_URL auth)) as Hfetch2 by (by eexists _, _).
  rewrite <-!app_assoc. cbn [app].
  destruct (answer_get net LINKEDIN_USERINFO_URL auth) as [response2|t]; run_async;
    [|apply Hends; [by repeat constructor|cbn; lia|done]].
  destruct (ok response2); run_async.
  - destruct (json response2); (apply Hends; [by repeat constructor|cbn; lia|done]).
  - destruct (text response2); (apply Hends; [by repeat constructor|cbn; lia|done]).
Qed.

(** How the exchange fails: a fetch that rejects is rethrown as it is, and
    a response that is not ok becomes an [Error] that carries the status
    and the body. *)
Lemma exchange_fetch_rejected env net (s code : string) w t :
  (∀ body, answer_post net LINKEDIN_TOKEN_URL body = Threw t) →
  (exchange env net s code w).1 = Threw t.
Proof.
  intros Hpost. unfold exchange, completeLinkedInOAuth, exchangeCodeForToken,
    fetch_post. run_async. by rewrite Hpost.
Qed.

Lemma exchange_token_not_ok env net (s code : string) w response errorText :
  (∀ body, answer_post net LINKEDIN_TOKEN_URL body = Returned response) →
  ok response = false →
  text response = Returned errorText →
  (exchange env net s code w).1
  = Threw (ThrownError ("LinkedIn token exchange failed: "
                          +:+ pretty (status response) +:+ " - " +:+ errorText)).
Proof.
  intros Hpost Hok Htext. unfold exchange, completeLinkedInOAuth,
    exchangeCodeForToken, fetch_post. run_async.
  rewrite Hpost. run_async. rewrite Hok. run_async. by rewrite Htext.
Qed.

Lemma exchange_profile_not_ok env net (s code : string) w response tokenResponse
    response2 errorText :
  (∀ body, answer_post net LINKEDIN_TOKEN_URL body = Returned response) →
  ok response = true →
  json response = Returned tokenResponse →
  answer_get net LINKEDIN_USERINFO_URL ("Bearer " +:+ access_token tokenResponse)
  = Returned response2 →
  ok response2 = false →
  text response2 = Returned errorText →
  (exchange env net s code w).1
  = Threw (ThrownError ("LinkedIn profile fetch failed: "
                          +:+ pretty (status response2) +:+ " - " +:+ errorText)).
Proof.
  intros Hpost Hok Hjson Hget Hok2 Htext2.
  unfold exchange, completeLinkedInOAuth, exchangeCodeForToken,
    fetchLinkedInProfile, fetch_post, fetch_get. run_async.
  rewrite Hpost. run_async. rewrite Hok. run_async. rewrite Hjson. run_async.
  rewrite Hget. run_async. rewrite Hok2. run_async. by rewrite Htext2.
Qed.

Lemma configured_passes env :
  configured env →
  negb (truthy_string (LINKEDIN_CLIENT_ID env))
  || negb (truthy_string (LINKEDIN_CLIENT_SECRET env))
  || negb (truthy_string (LINKEDIN_REDIRECT_URI env)) = false.
Proof. by intros (-> & -> & ->). Qed.

(** C6. [completeLinkedInOAuthAction] invokes the validation first, then
    at most the two fetches of the exchange, then at most the completion,
    and the completion only after two fetches that gave a profile whose
    [sub] and [name] are strings; unless the completion ran, the database is
    untouched. When the validation answers invalid, the action returns that
    error having invoked nothing else. When the exchange throws (a rejected
    fetch, a response that is not ok, a body that does not parse), the
    action catches it and returns "LinkedIn OAuth failed: " followed by the
    error's message, having invoked only the validation and fetches, with
    the database untouched. When the exchange gives a profile whose [sub]
    and [name] are strings, the action runs the completion with them and
    returns what the completion returns. The action throws in one case
    only: the state is valid, the provider is configured and the exchange
    gave a profile whose [sub] or [name] is not a string; then the call of
    the completion is refused with [ArgumentValidationError], which nothing
    catches, the completion has not run and the database is untouched. So
    the action returns every failure as a result but this one, and nothing
    that the network throws leaves it. *)
Theorem action_stops_at_first_failure env net now_query now_mutation (s code : string) w :
  ((∃ result,
       (completeLinkedInOAuthAction env net now_query now_mutation s code w).1
       = Returned result)
   ∨ ∃ a profile,
       validateState now_query s (world_db w) = StateValid a
       ∧ configured env
       ∧ exchange env net s code w
         = (Returned profile,
            (completeLinkedInOAuthAction env net now_query now_mutation s code w).2)
       ∧ (sub profile = None ∨ name profile = None)
       ∧ (completeLinkedInOAuthAction env net now_query now_mutation s code w).1
         = Threw ArgumentValidationError)
  ∧ (∃ fetches mutation,
      world_events (completeLinkedInOAuthAction env net now_query now_mutation s code w).2
      = (world_events w ++ RunQuery_validateState s :: fetches ++ mutation)%list
      ∧ Forall is_fetch fetches
      ∧ (length fetches ≤ 2)%nat
      ∧ (mutation = []
         ∧ world_db (completeLinkedInOAuthAction env net now_query now_mutation s code w).2
           = world_db w
         ∨ ∃ a profile linkedinId linkedinName,
             mutation = [RunMutation_completeVerification s linkedinId linkedinName]
             ∧ length fetches = 2%nat
             ∧ validateState now_query s (world_db w) = StateValid a
             ∧ (exchange env net s code w).1 = Returned profile
             ∧ sub profile = Some linkedinId
             ∧ name profile = Some linkedinName))
  ∧ (∀ err,
      validateState now_query s (world_db w) = StateInvalid err →
      completeLinkedInOAuthAction env net now_query now_mutation s code w
      = (Returned (CompleteFailure err), invoked w [RunQuery_validateState s]))
  ∧ (∀ a t,
      validateState now_query s (world_db w) = StateValid a →
      configured env →
      (exchange env net s code w).1 = Threw t →
      ∃ fetches,
        completeLinkedInOAuthAction env net now_query now_mutation s code w
        = (Returned (CompleteFailure ("LinkedIn OAuth failed: " +:+ message_of t)),
           invoked w (RunQuery_validateState s :: fetches))
        ∧ Forall is_fetch fetches)
  ∧ (∀ a profile w1 linkedinId linkedinName,
      validateState now_query s (world_db w) = StateValid a →
      configured env →
      exchange env net s code w = (Returned profile, w1) →
      sub profile = Some linkedinId →
      name profile = Some linkedinName →
      completeLinkedInOAuthAction env net now_query now_mutation s code w
      = (Returned
           (completeVerification now_mutation s linkedinId linkedinName (world_db w)).1,
         {| world_db :=
              (completeVerification now_mutation s linkedinId linkedinName (world_db w)).2;
            world_events :=
              (world_events w1
               ++ [RunMutation_completeVerification s linkedinId linkedinName])%list |}))
  ∧ (∀ a profile w1,
      validateState now_query s (world_db w) = StateValid a →
      configured env →
      exchange env net s code w = (Returned profile, w1) →
      sub profile = None ∨ name profile = None →
      completeLinkedInOAuthAction env net now_query now_mutation s code w
      = (Threw ArgumentValidationError, w1)
      ∧ world_db w1 = world_db w).
Proof.
  destruct (exchange_only_fetches net code
              (default "" (LINKEDIN_CLIENT_ID env))
              (default "" (LINKEDIN_CLIENT_SECRET env))
              (default "" (LINKEDIN_REDIRECT_URI env))
              (invoked w [RunQuery_validateState s]))
    as (outcome & fetches & Hexchange & Hfetches & Hlen & Htwo).
  unfold exchange, completeLinkedInOAuthAction. run_async.
  rewrite !Hexchange. cbn [fst].
  destruct (validateState now_query s (world_db w)) as [a|err] eqn:Hvalid; run_async.
  2:{ split_and!; [left; by eexists| |by intros ? [= <-]|done..].
      exists [], []. split_and!; [done|by constructor|cbn; lia|by left]. }
  destruct (negb (truthy_string (LINKEDIN_CLIENT_ID env)) || _ || _) eqn:Henv;
    run_async.
  { split_and!; [left; by eexists| |done| | |].
    - exists [], []. split_and!; [done|by constructor|cbn; lia|by left].
    - intros ? ? _ Hconf. by rewrite (configured_passes env Hconf) in Henv.
    - intros ? ? ? ? ? _ Hconf. by rewrite (configured_passes env Hconf) in Henv.
    - intros ? ? ? _ Hconf. by rewrite (configured_passes env Hconf) in Henv. }
  assert (configured env) as Hconf.
  { unfold configured.
    by destruct (truthy_string (LINKEDIN_CLIENT_ID env)),
         (truthy_string (LINKEDIN_CLIENT_SECRET env)),
         (truthy_string (LINKEDIN_REDIRECT_URI env)). }
  rewrite !Hexchange. clear Hexchange.
  destruct outcome as [profile|t]; run_async.
  - unfold completeVerification_args.
    destruct (sub profile) as [linkedinId|] eqn:Hsub,
             (name profile) as [linkedinName|] eqn:Hname;
      cbn [mbind option_bind]; run_async.
    + destruct (completeVerification now_mutation s linkedinId linkedinName (world_db w))
        as [result db'] eqn:Hcomplete.
      split_and!; [left; by eexists| |done|done| |].
      * exists fetches, [RunMutation_completeVerification s linkedinId linkedinName].
        cbn [snd world_events]. rewrite <-!app_assoc.
        split_and!; [done..|]. right. exists a, profile, linkedinId, linkedinName.
        split_and!; [done|by apply (Htwo profile)|done..].
      * intros ? ? ? ? ? _ _ [= <- <-]. rewrite Hsub, Hname.
        intros [= <-] [= <-]. by rewrite Hcomplete.
      * intros ? ? ? _ _ [= <- <-]. rewrite Hsub, Hname. by intros [|].
    + split_and!; [right; exists a, profile; split_and!; by auto| |done|done| |].
      * exists fetches, []. cbn [snd world_events world_db].
        rewrite app_nil_r, <-app_assoc. split_and!; [done..|by left].
      * intros ? ? ? ? ? _ _ [= <- <-]. by rewrite Hname.
      * by intros ? ? ? _ _ [= <- <-] _.
    + split_and!; [right; exists a, profile; split_and!; by auto| |done|done| |].
      * exists fetches, []. cbn [snd world_events world_db].
        rewrite app_nil_r, <-app_assoc. split_and!; [done..|by left].
      * intros ? ? ? ? ? _ _ [= <- <-]. by rewrite Hsub.
      * by intros ? ? ? _ _ [= <- <-] _.
    + split_and!; [right; exists a, profile; split_and!; by auto| |done|done| |].
      * exists fetches, []. cbn [snd world_events world_db].
        rewrite app_nil_r, <-app_assoc. split_and!; [done..|by left].
      * intros ? ? ? ? ? _ _ [= <- <-]. by rewrite Hsub.
      * by intros ? ? ? _ _ [= <- <-] _.
  - split_and!; [left; by eexists| |done| |done..].
    + exists fetches, []. cbn [snd world_events world_db].
      rewrite app_nil_r, <-app_assoc. split_and!; [done..|by left].
    + intros ? ? [= <-] _ [= <-]. exists fetches. rewrite <-app_assoc.
      split; [|done]. by destruct t.
Qed.

End action_facts.

(** On [fixtures.world_open]: a state that no row carries; a token
    endpoint that answers 401; a provider that cannot be reached; a provider
    that answers with Jane Doe's profile; a provider whose profile has no
    [name]. *)
Lemma action_stops_at_first_failure_witness :
  completeLinkedInOAuthAction fixtures.env_ok fixtures.net_ok 9000 9100
    "stateZ" "code-1" fixtures.world_open
  = (Returned (CompleteFailure "Invalid or expired state token"),
     invoked fixtures.world_open [RunQuery_validateState "stateZ"])
  ∧ (completeLinkedInOAuthAction fixtures.env_ok fixtures.net_401 9000 9100
       "stateA" "code-1" fixtures.world_open).1
    = Returned (CompleteFailure
        "LinkedIn OAuth failed: LinkedIn token exchange failed: 401 - invalid_client")
  ∧ (completeLinkedInOAuthAction fixtures.env_ok fixtures.net_down 9000 9100
       "stateA" "code-1" fixtures.world_open).1
    = Returned (CompleteFailure "LinkedIn OAuth failed: fetch failed")
  ∧ (completeLinkedInOAuthAction fixtures.env_ok fixtures.net_ok 9000 9100
       "stateA" "code-1" fixtures.world_open).1
    = Returned (CompleteSuccess 1 "claw" "Jane Doe")
  ∧ completeLinkedInOAuthAction fixtures.env_ok fixtures.net_nameless 9000 9100
      "stateA" "code-1" fixtures.world_open
    = (Threw ArgumentValidationError,
       invoked fixtures.world_open
         [ RunQuery_validateState "stateA";
           Fetch LINKEDIN_TOKEN_URL
             (token_request_body "code-1" "client-1" "s3cret"
                "https://linkclaws.example/cb");
           Fetch LINKEDIN_USERINFO_URL "Bearer tok-1" ]).
Proof.
  split; [|split; [|split; [|split]]].
  - apply (proj1 (proj2 (proj2
             (action_stops_at_first_failure fixtures.env_ok fixtures.net_ok 9000 9100
                "stateZ" "code-1" fixtures.world_open)))).
    reflexivity.
  - destruct (proj1 (proj2 (proj2 (proj2
                (action_stops_at_first_failure fixtures.env_ok fixtures.net_401 9000 9100
                   "stateA" "code-1" fixtures.world_open))))
                1%positive
                (ThrownError "LinkedIn token exchange failed: 401 - invalid_client"))
      as (fetches & Hrun & _).
    + reflexivity.
    + by repeat split.
    + vm_compute. reflexivity.
    + by rewrite Hrun.
  - destruct (proj1 (proj2 (proj2 (proj2
                (action_stops_at_first_failure fixtures.env_ok fixtures.net_down 9000 9100
                   "stateA" "code-1" fixtures.world_open))))
                1%positive (ThrownError "fetch failed"))
      as (fetches & Hrun & _).
    + reflexivity.
    + by repeat split.
    + vm_compute. reflexivity.
    + by rewrite Hrun.
  - rewrite (proj1 (proj2 (proj2 (proj2 (proj2
               (action_stops_at_first_failure fixtures.env_ok fixtures.net_ok 9000 9100
                  "stateA" "code-1" fixtures.world_open)))))
               1%positive fixtures.profile_jane
               (exchange fixtures.env_ok fixtures.net_ok "stateA" "code-1"
                  fixtures.world_open).2
               "abc123" "Jane Doe").
    + by vm_compute.
    + reflexivity.
    + by repeat split.
    + by vm_compute.
    + reflexivity.
    + reflexivity.
  - destruct (proj2 (proj2 (proj2 (proj2 (proj2
                (action_stops_at_first_failure fixtures.env_ok fixtures.net_nameless
                   9000 9100 "stateA" "code-1" fixtures.world_open)))))
                1%positive fixtures.profile_nameless
                (exchange fixtures.env_ok fixtures.net_nameless "stateA" "code-1"
                   fixtures.world_open).2)
      as [Hrun _].
    + reflexivity.
    + by repeat split.
    + by vm_compute.
    + by right.
    + rewrite Hrun. by vm_compute.
Defined.

(** The userinfo endpoint answers 200 with a body that has no [name], for a
    valid state: the action does not return a result, it throws. *)
Lemma action_throws_on_profile_without_name :
  ¬ (∀ env net now_query now_mutation (s code : string) w,
       ∃ result,
         (completeLinkedInOAuthAction env net now_query now_mutation s code w).1
         = Returned result).
Proof.
  intros Hall.
  destruct (Hall fixtures.env_ok fixtures.net_nameless 9000 9100 "stateA" "code-1"
              fixtures.world_open) as [result Hresult].
  vm_compute in Hresult. discriminate Hresult.
Qed.

(** * Further properties of the handlers *)

(** ** What a completion may change *)
Section completion_frame.

Implicit Types (db : DB) (request : VerificationRequest) (now : Z).

(** The four ways [completeVerification] ends, with the database each
    leaves. *)
Lemma complete_cases now (s id name : string) db :
  (first_by_state s db = None
   ∧ completeVerification now s id name db
     = (CompleteFailure "Invalid or expired state token", db))
  ∨ (∃ request,
       first_by_state s db = Some request
       ∧ ((now > expiresAt request
           ∧ completeVerification now s id name db
             = (CompleteFailure "Verification request expired",
                patched (_id request) (fields_error "State token expired") db))
          ∨ (¬ now > expiresAt request
             ∧ truthy_number (completedAt request) = true
             ∧ completeVerification now s id name db
               = (CompleteFailure "Verification already completed", db))
          ∨ (¬ now > expiresAt request
             ∧ truthy_number (completedAt request) = false
             ∧ agents db !! agentId request = None
             ∧ completeVerification now s id name db
               = (CompleteFailure "Agent not found",
                  patched (_id request) (fields_error "Agent not found") db))
          ∨ (∃ agent,
               ¬ now > expiresAt request
               ∧ truthy_number (completedAt request) = false
               ∧ agents db !! agentId request = Some agent
               ∧ completeVerification now s id name db
                 = (CompleteSuccess (agentId request) (handle agent) name,
                    {| agents :=
                         <[agentId request := completed_agent agent id name now]>
                           (agents db);
                       linkedinVerificationRequests :=
                         linkedinVerificationRequests
                           (patched (_id request) (fields_completedAt now) db);
                       activityLog :=
                         (activityLog db
                          ++ [verified_entry (agentId request) name now])%list;
                       nextId := nextId db |})))).
Proof.
  destruct (first_by_state s db) as [request|] eqn:Hfirst.
  2:{ left. split; [done|]. unfold completeVerification. run_mutation.
      by rewrite Hfirst. }
  right. exists request. split; [done|].
  destruct (decide (now > expiresAt request)) as [Hexp|Hlive].
  { left. split; [done|]. unfold completeVerification. run_mutation.
    by rewrite Hfirst, bool_decide_eq_true_2. }
  right. destruct (truthy_number (completedAt request)) eqn:Hdone.
  { left. split_and!; [done..|]. by apply (complete_already_completed _ _ _ _ _ request). }
  right. destruct (agents db !! agentId request) as [agent|] eqn:Hagent.
  - right. exists agent. split_and!; [done..|]. by apply complete_live.
  - left. split_and!; [done..|]. by apply complete_agent_missing.
Qed.

(** The columns of a request that no patch of the flow writes. *)
Lemma patched_columns id (fields : VerificationRequest → VerificationRequest) db :
  (∀ r, _id (fields r) = _id r ∧ agentId (fields r) = agentId r
        ∧ state (fields r) = state r ∧ createdAt (fields r) = createdAt r
        ∧ expiresAt (fields r) = expiresAt r) →
  (λ r, (_id r, agentId r, state r, createdAt r, expiresAt r))
    <$> linkedinVerificationRequests (patched id fields db)
  = (λ r, (_id r, agentId r, state r, createdAt r, expiresAt r))
    <$> linkedinVerificationRequests db.
Proof.
  intros Hfields. unfold patched. cbn. rewrite <-list_fmap_compose.
  apply list_fmap_ext. intros i r _. cbn. case_decide; [|done].
  destruct (Hfields r) as (-> & -> & -> & -> & ->). done.
Qed.

Lemma patched_other_rows id (fields : VerificationRequest → VerificationRequest) db
    (i : nat) (r : VerificationRequest) :
  linkedinVerificationRequests db !! i = Some r → _id r ≠ id →
  linkedinVerificationRequests (patched id fields db) !! i = Some r.
Proof.
  intros Hr Hid. unfold patched. cbn. rewrite list_lookup_fmap, Hr. cbn.
  by rewrite decide_False.
Qed.

Lemma filter_fmap_shrinks {A} (P : A → Prop) `{!∀ x, Decision (P x)} (f : A → A)
    (l : list A) :
  (∀ x, P (f x) → P x) →
  (length (filter P (f <$> l)) ≤ length (filter P l))%nat.
Proof.
  intros Hf. induction l as [|x l IH]; [done|].
  rewrite fmap_cons, !filter_cons.
  destruct (decide (P (f x))) as [Hfx|Hfx].
  - rewrite decide_True by auto. cbn. lia.
  - case_decide; cbn; lia.
Qed.

Lemma patched_single_flow id (fields : VerificationRequest → VerificationRequest) db :
  (∀ r a, uncompleted_of a (fields r) → uncompleted_of a r) →
  single_flow db → single_flow (patched id fields db).
Proof.
  intros Hfields Hdb a. specialize (Hdb a).
  unfold collect_uncompleted, patched in *. cbn.
  etrans; [|exact Hdb]. apply filter_fmap_shrinks.
  intros r. case_decide; [apply Hfields|done].
Qed.

Lemma patched_ids_fresh id (fields : VerificationRequest → VerificationRequest) db :
  (∀ r, _id (fields r) = _id r) → ids_fresh db → ids_fresh (patched id fields db).
Proof.
  intros Hfields [Hnd Hlt].
  assert (_id <$> linkedinVerificationRequests (patched id fields db)
          = _id <$> linkedinVerificationRequests db) as Hids.
  { unfold patched. cbn. rewrite <-list_fmap_compose. apply list_fmap_ext.
    intros i r _. cbn. case_decide; [apply Hfields|done]. }
  split; [by rewrite Hids|].
  unfold patched. cbn. apply Forall_fmap. eapply Forall_impl; [exact Hlt|].
  intros r Hr. cbn. case_decide; [by rewrite Hfields|done].
Qed.

(** X1. The completer and the validator agree: on the same database at the
    same instant, the completion succeeds for agent [a] exactly when the
    validation answers valid with [a], and when the validation answers
    invalid the completion fails with the same error message. *)
Theorem complete_agrees_with_validate now (s id name : string) db :
  match validateState now s db with
  | StateValid a =>
    ∃ agent, agents db !! a = Some agent
             ∧ (completeVerification now s id name db).1
               = CompleteSuccess a (handle agent) name
  | StateInvalid err =>
    (completeVerification now s id name db).1 = CompleteFailure err
  end.
Proof.
  unfold validateState, db_get_agent.
  destruct (complete_cases now s id name db)
    as [[-> ->]|(request & -> & [(Hexp & ->)|[(Hlive & Hdone & ->)|
         [(Hlive & Hopen & Hagent & ->)|(agent & Hlive & Hopen & Hagent & ->)]]])];
    [done|by rewrite bool_decide_eq_true_2|..];
    rewrite bool_decide_eq_false_2 by done.
  - by rewrite Hdone.
  - by rewrite Hopen, Hagent.
  - rewrite Hopen, Hagent. by exists agent.
Qed.

(** X2. A completion never inserts, deletes or reorders requests and never
    writes their [_id], [agentId], [state], [createdAt] or [expiresAt]; it
    leaves the supply of identifiers alone; a row whose identifier is not
    that of the request the state finds is returned as it was; and when the
    state finds no request the whole database is returned as it was. *)
Theorem complete_keeps_request_columns now (s id name : string) db :
  (λ r, (_id r, agentId r, state r, createdAt r, expiresAt r))
    <$> linkedinVerificationRequests (completeVerification now s id name db).2
  = (λ r, (_id r, agentId r, state r, createdAt r, expiresAt r))
    <$> linkedinVerificationRequests db
  ∧ nextId (completeVerification now s id name db).2 = nextId db
  ∧ (∀ request (i : nat) (r : VerificationRequest),
       first_by_state s db = Some request →
       linkedinVerificationRequests db !! i = Some r →
       _id r ≠ _id request →
       linkedinVerificationRequests (completeVerification now s id name db).2 !! i
       = Some r)
  ∧ (first_by_state s db = None → (completeVerification now s id name db).2 = db).
Proof.
  destruct (complete_cases now s id name db)
    as [[Hnone ->]|(request & Hfirst & [(Hexp & ->)|[(Hlive & Hdone & ->)|
         [(Hlive & Hopen & Hagent & ->)|(agent & Hlive & Hopen & Hagent & ->)]]])];
    cbn [snd linkedinVerificationRequests nextId].
  - split_and!; try done; by rewrite Hnone.
  - split_and!; [by apply patched_columns|done| |by rewrite Hfirst].
    intros ? i r Heq Hr Hid. rewrite Hfirst in Heq. injection Heq as <-.
    by apply patched_other_rows.
  - split_and!; [done|done| |by rewrite Hfirst]. by intros ? i r _ Hr _.
  - split_and!; [by apply patched_columns|done| |by rewrite Hfirst].
    intros ? i r Heq Hr Hid. rewrite Hfirst in Heq. injection Heq as <-.
    by apply patched_other_rows.
  - split_and!; [by apply patched_columns|done| |by rewrite Hfirst].
    intros ? i r Heq Hr Hid. rewrite Hfirst in Heq. injection Heq as <-.
    by apply patched_other_rows.
Qed.

(** X3. A completion writes the agents and the log only when it succeeds:
    then it appends exactly one entry, "linkedin_verified" for the agent
    with the given name and instant, and changes no agent but that one. A
    failing completion returns the agents and the log as they were and
    leaves every [completedAt] as it was. *)
Theorem complete_writes_agent_and_log_on_success_only now (s id name : string) db :
  match (completeVerification now s id name db).1 with
  | CompleteSuccess a _ _ =>
    activityLog (completeVerification now s id name db).2
    = (activityLog db ++ [verified_entry a name now])%list
    ∧ (∀ b, b ≠ a →
         agents (completeVerification now s id name db).2 !! b = agents db !! b)
    ∧ dom (agents (completeVerification now s id name db).2) = dom (agents db)
  | CompleteFailure _ =>
    agents (completeVerification now s id name db).2 = agents db
    ∧ activityLog (completeVerification now s id name db).2 = activityLog db
    ∧ completedAt <$> linkedinVerificationRequests (completeVerification now s id name db).2
      = completedAt <$> linkedinVerificationRequests db
  end.
Proof.
  assert (∀ id' e,
            completedAt <$> linkedinVerificationRequests (patched id' (fields_error e) db)
            = completedAt <$> linkedinVerificationRequests db) as Herror.
  { intros id' e. unfold patched. cbn. rewrite <-list_fmap_compose.
    apply list_fmap_ext. intros i r _. cbn. by case_decide. }
  destruct (complete_cases now s id name db)
    as [[Hnone ->]|(request & Hfirst & [(Hexp & ->)|[(Hlive & Hdone & ->)|
         [(Hlive & Hopen & Hagent & ->)|(agent & Hlive & Hopen & Hagent & ->)]]])];
    cbn [fst snd agents activityLog linkedinVerificationRequests];
    [done|by split_and!|done|by split_and!|].
  split_and!; [done| |].
  - intros b Hb. by rewrite lookup_insert_ne.
  - rewrite dom_insert_L. apply elem_of_dom_2 in Hagent.
    apply set_eq. intros b. rewrite elem_of_union, elem_of_singleton.
    split; [intros [->|?]; done|by right].
Qed.

(** X4. Starts and completions in any order keep the two invariants of the
    request table: at most one uncompleted request per agent, and unique
    identifiers below the next fresh one. *)
Theorem flow_keeps_invariants (verifyApiKey : string → Query (option positive))
    (calls : list FlowCall) db :
  (single_flow db → single_flow (run_calls verifyApiKey calls db))
  ∧ (ids_fresh db → ids_fresh (run_calls verifyApiKey calls db)).
Proof.
  assert (∀ c db, (single_flow db → single_flow (run_call verifyApiKey db c))
                  ∧ (ids_fresh db → ids_fresh (run_call verifyApiKey db c))) as Hstep.
  { intros [c|now s id name] db0; cbn [run_call].
    { split; [apply start_single_flow|apply start_ids_fresh]. }
    assert (∀ e r a, uncompleted_of a (fields_error e r) → uncompleted_of a r)
      as Herror by done.
    assert (∀ r a, uncompleted_of a (fields_completedAt now r) → uncompleted_of a r)
      as Hcompleted by (by intros r a [_ ?]).
    destruct (complete_cases now s id name db0)
      as [[Hnone ->]|(request & Hfirst & [(Hexp & ->)|[(Hlive & Hdone & ->)|
           [(Hlive & Hopen & Hagent & ->)|(agent & Hlive & Hopen & Hagent & ->)]]])];
      cbn [snd]; [done| |done| |].
    - split; [by apply patched_single_flow, Herror|by apply patched_ids_fresh].
    - split; [by apply patched_single_flow, Herror|by apply patched_ids_fresh].
    - split.
      + intros Hdb a.
        apply (patched_single_flow (_id request) (fields_completedAt now) db0
                 Hcompleted Hdb a).
      + intros Hdb.
        apply (patched_ids_fresh (_id request) (fields_completedAt now) db0); done. }
  revert db. induction calls as [|c calls IH]; intros db; [done|].
  cbn. split; intros Hdb; apply IH, Hstep, Hdb.
Qed.

End completion_frame.

(** ** How the handlers compose *)
Section flow.
Variable verifyApiKey : string → Query (option positive).

Implicit Types (db : DB) (now : Z).

(** What a successful start leaves behind, for the later handlers. *)
Lemma start_success_after env randomValues now apiKey db url e msg db' :
  startVerification verifyApiKey env randomValues now apiKey db
    = (StartSuccess url e msg, db') →
  ∃ a agent,
    verifyApiKey apiKey db = Some a
    ∧ agents db' = agents db
    ∧ agents db !! a = Some agent
    ∧ (bool_decide (verificationType agent = "linkedin") && verified agent) = false
    ∧ collect_uncompleted a db' = [started_request db a randomValues now]
    ∧ linkedinVerificationRequests db'
      = (filter (λ r, _id r ∉ _id <$> collect_uncompleted a db)
           (linkedinVerificationRequests db)
         ++ [started_request db a randomValues now])%list.
Proof.
  intros Hrun.
  apply start_success_inv in Hrun
    as (a & agent & Hkey & Hagent & Hlinked & _ & _ & _ & _ & _ & ->).
  exists a, agent. split_and!; [done..| |done].
  unfold collect_uncompleted. cbn [linkedinVerificationRequests].
  rewrite filter_app, uncompleted_after_delete, decide_True by done.
  rewrite filter_cons_True, filter_nil; [done|]. by split.
Qed.

Lemma filter_none {A} (P Q : A → Prop) `{!∀ x, Decision (P x)} `{!∀ x, Decision (Q x)}
    (l : list A) :
  Forall (λ x, ¬ P x) l → filter P (filter Q l) = [].
Proof.
  intros Hall. induction Hall as [|x l Hx _ IH]; [done|].
  rewrite filter_cons. case_decide; [|done]. by rewrite filter_cons_False.
Qed.

(** After a successful start whose token no row carried, the token finds
    the new request, which is the agent's only uncompleted one. *)
Lemma started_token_first env randomValues now apiKey db url e msg db' :
  startVerification verifyApiKey env randomValues now apiKey db
    = (StartSuccess url e msg, db') →
  never_issued (generateOAuthState randomValues) db →
  ∃ a agent,
    verifyApiKey apiKey db = Some a
    ∧ agents db' = agents db
    ∧ agents db !! a = Some agent
    ∧ collect_uncompleted a db' = [started_request db a randomValues now]
    ∧ first_by_state (generateOAuthState randomValues) db'
      = Some (started_request db a randomValues now).
Proof.
  intros Hrun Hfresh.
  apply start_success_after in Hrun
    as (a & agent & Hkey & Hagents & Hagent & _ & Huncompleted & Htable).
  exists a, agent. split_and!; [done..|].
  unfold first_by_state. rewrite Htable, filter_app.
  rewrite filter_none by (eapply Forall_impl; [exact Hfresh|]; cbn; by intros r Hr ?).
  by rewrite filter_cons_True.
Qed.

(** X5. The token of a successful start is the key of the stored request:
    when no row carried that token before, the state finds the new request;
    until [now + 15 minutes] inclusive the validator answers valid with the
    starting agent and the completer succeeds for it, and after that instant
    the validator answers "Verification request expired". *)
Theorem started_token_validates env randomValues now apiKey db url e msg db' :
  startVerification verifyApiKey env randomValues now apiKey db
    = (StartSuccess url e msg, db') →
  never_issued (generateOAuthState randomValues) db →
  ∃ a agent,
    verifyApiKey apiKey db = Some a
    ∧ agents db' !! a = Some agent
    ∧ first_by_state (generateOAuthState randomValues) db'
      = Some (started_request db a randomValues now)
    ∧ ∀ now',
        ((now' ≤ now + STATE_EXPIRATION_MS)%Z →
         validateState now' (generateOAuthState randomValues) db' = StateValid a
         ∧ ∀ id name,
             (completeVerification now' (generateOAuthState randomValues) id name db').1
             = CompleteSuccess a (handle agent) name)
        ∧ (now' > now + STATE_EXPIRATION_MS →
           validateState now' (generateOAuthState randomValues) db'
           = StateInvalid "Verification request expired").
Proof.
  intros Hrun Hfresh.
  apply start_success_after in Hrun
    as (a & agent & Hkey & Hagents & Hagent & _ & _ & Htable).
  assert (first_by_state (generateOAuthState randomValues) db'
          = Some (started_request db a randomValues now)) as Hfirst.
  { unfold first_by_state. rewrite Htable, filter_app.
    rewrite filter_none by (eapply Forall_impl; [exact Hfresh|]; cbn; by intros r Hr ?).
    by rewrite filter_cons_True. }
  exists a, agent. split_and!; [done|by rewrite Hagents|done|].
  intros now'. split.
  - intros Hlive. split.
    + unfold validateState, db_get_agent. rewrite Hfirst. cbn.
      rewrite bool_decide_eq_false_2 by lia. by rewrite Hagents, Hagent.
    + intros id name.
      rewrite (complete_live now' _ id name db' _ agent Hfirst);
        [done|cbn; lia|done|cbn; by rewrite Hagents].
  - intros Hexp. unfold validateState. rewrite Hfirst. cbn.
    by rewrite bool_decide_eq_true_2.
Qed.

(** X6. A successful start invalidates the agent's earlier tokens: a state
    other than the new token that was carried only by uncompleted requests
    of the starting agent is carried by no row afterwards, so the validator
    and the completer answer "Invalid or expired state token" for it, and
    the completer changes nothing. *)
Theorem start_invalidates_previous_tokens env randomValues now apiKey db url e msg db'
    (a : positive) (s : string) :
  startVerification verifyApiKey env randomValues now apiKey db
    = (StartSuccess url e msg, db') →
  verifyApiKey apiKey db = Some a →
  s ≠ generateOAuthState randomValues →
  (∀ r, r ∈ linkedinVerificationRequests db → state r = s → uncompleted_of a r) →
  never_issued s db'
  ∧ ∀ now' id name,
      validateState now' s db' = StateInvalid "Invalid or expired state token"
      ∧ completeVerification now' s id name db'
        = (CompleteFailure "Invalid or expired state token", db').
Proof.
  intros Hrun Hkey Hnew Hold.
  apply start_success_after in Hrun
    as (a' & agent & Hkey' & _ & _ & _ & _ & Htable).
  rewrite Hkey in Hkey'. injection Hkey' as <-.
  assert (never_issued s db') as Hnever.
  { unfold never_issued. rewrite Htable. apply Forall_app. split.
    - apply Forall_forall. intros r [Hid Hr]%list_elem_of_filter Hs.
      apply Hid, list_elem_of_fmap_2, list_elem_of_filter. split; [|done].
      by apply Hold.
    - apply Forall_singleton. cbn. congruence. }
  split; [done|]. intros now' id name.
  pose proof (never_issued_first s db' Hnever) as Hnone. split.
  - unfold validateState. by rewrite Hnone.
  - unfold completeVerification. run_mutation. by rewrite Hnone.
Qed.

(** X7. After a successful completion for agent [a], every key that
    resolves to [a] gets the status [verified: true] with the LinkedIn id,
    the name and the instant of that completion, whatever requests are
    open; and a start with such a key fails with "Agent is already LinkedIn
    verified" and changes nothing. *)
Theorem completed_agent_is_verified_and_cannot_restart now (s id name : string) db
    (a : positive) (h n : string) db' (apiKey : string) :
  completeVerification now s id name db = (CompleteSuccess a h n, db') →
  verifyApiKey apiKey db' = Some a →
  (∀ now',
     getVerificationStatus verifyApiKey now' apiKey db'
     = {| pending := false; status_verified := true;
          status_verificationType := Some "linkedin";
          status_linkedinId := Some id;
          status_linkedinName := Some name;
          verifiedAt := Some now;
          pendingExpiresAt := None |})
  ∧ (∀ env randomValues now',
       startVerification verifyApiKey env randomValues now' apiKey db'
       = (StartFailure "Agent is already LinkedIn verified", db')).
Proof.
  intros Hrun Hkey.
  destruct (complete_success_inv _ _ _ _ _ _ _ _ _ Hrun)
    as (request & agent & Hfirst & Hlive & Hopen & Hagent).
  rewrite (complete_live now s id name db request agent) in Hrun by done.
  injection Hrun as <- _ _ Hdb.
  assert (agents db' !! agentId request = Some (completed_agent agent id name now))
    as Hafter by (rewrite <-Hdb; apply lookup_insert_eq).
  clear Hdb.
  assert (verificationType (completed_agent agent id name now) = "linkedin"
          ∧ verified (completed_agent agent id name now) = true
          ∧ linkedinId (completed_agent agent id name now) = Some id
          ∧ linkedinName (completed_agent agent id name now) = Some name
          ∧ linkedinVerifiedAt (completed_agent agent id name now) = Some now)
    as (Htype & Hverified & Hid & Hname & Hat).
  { unfold completed_agent. by case_bool_decide. }
  split.
  - intros now'. unfold getVerificationStatus, db_get_agent.
    rewrite Hkey, Hafter, bool_decide_eq_true_2, Hverified by done. cbn.
    by rewrite Hid, Hname, Hat.
  - intros env randomValues now'. unfold startVerification. run_mutation.
    unfold db_get_agent.
    by rewrite Hkey, Hafter, bool_decide_eq_true_2, Hverified.
Qed.

Lemma filter_pending_at now (a : positive) (l : list VerificationRequest) :
  filter (pending_at now a) l
  = filter (λ r, expiresAt r > now) (filter (uncompleted_of a) l).
Proof.
  rewrite list_filter_filter. apply list_filter_iff. unfold pending_at. tauto.
Qed.

(** X8. After a successful start at [now], every key that resolves to the
    starting agent gets the status [pending: true] with [pendingExpiresAt =
    now + 15 minutes] at every instant before that expiry, and
    [{pending: false, verified: false}] from the expiry instant on: at the
    expiry instant itself the request is no longer reported as pending. *)
Theorem started_flow_is_pending_until_expiry env randomValues now apiKey db url e msg db' :
  startVerification verifyApiKey env randomValues now apiKey db
    = (StartSuccess url e msg, db') →
  ∃ a, verifyApiKey apiKey db = Some a
    ∧ ∀ apiKey' now',
        verifyApiKey apiKey' db' = Some a →
        (now' < now + STATE_EXPIRATION_MS →
         getVerificationStatus verifyApiKey now' apiKey' db'
         = {| pending := true; status_verified := false;
              status_verificationType := None; status_linkedinId := None;
              status_linkedinName := None; verifiedAt := None;
              pendingExpiresAt := Some (now + STATE_EXPIRATION_MS) |})
        ∧ ((now + STATE_EXPIRATION_MS ≤ now')%Z →
           getVerificationStatus verifyApiKey now' apiKey' db' = status_none).
Proof.
  intros Hrun.
  apply start_success_after in Hrun
    as (a & agent & Hkey & Hagents & Hagent & Hlinked & Huncompleted & _).
  exists a. split; [done|]. intros apiKey' now' Hkey'.
  unfold getVerificationStatus, db_get_agent.
  rewrite Hkey', Hagents, Hagent, Hlinked, filter_pending_at.
  unfold collect_uncompleted in Huncompleted. rewrite Huncompleted.
  split; intros Hnow.
  - rewrite filter_cons_True by (cbn; lia). done.
  - rewrite filter_cons_False by (cbn; lia). done.
Qed.

End flow.

(** ** The token exchange client and the action *)
Section exchange_properties.

Implicit Types (w : World) (net : Network) (env : ProcessEnv).

Ltac run_async :=
  cbv beta iota zeta delta
    [mbind mret Async_bind Async_ret try_catch settle throw emit runQuery
     runMutation transaction invoked] in *;
  cbn [fst snd negb world_db world_events] in *.

(** The serialized parameters of the token request. *)
Lemma token_request_body_eq (code clientId clientSecret redirectUri : string) :
  URLSearchParams_toString
    [ ("grant_type", "authorization_code"); ("code", code);
      ("redirect_uri", redirectUri); ("client_id", clientId);
      ("client_secret", clientSecret) ]
  = token_request_body code clientId clientSecret redirectUri.
Proof.
  unfold URLSearchParams_toString, join, token_request_body.
  cbn [fmap list_fmap String.concat fst snd].
  rewrite !append_assoc. reflexivity.
Qed.

(** [exchangeCodeForToken] makes one fetch and ends as the response
    decides. *)
Lemma exchangeCodeForToken_run net (code clientId clientSecret redirectUri : string) w :
  exchangeCodeForToken (fetch_post net) code clientId clientSecret redirectUri w
  = (match answer_post net LINKEDIN_TOKEN_URL
             (token_request_body code clientId clientSecret redirectUri) with
     | Threw t => Threw t
     | Returned response =>
       if ok response then json response
       else match text response with
            | Returned errorText =>
              Threw (ThrownError ("LinkedIn token exchange failed: "
                                    +:+ pretty (status response) +:+ " - " +:+ errorText))
            | Threw t => Threw t
            end
     end,
     invoked w [Fetch LINKEDIN_TOKEN_URL
                  (token_request_body code clientId clientSecret redirectUri)]).
Proof.
  unfold exchangeCodeForToken, fetch_post. rewrite token_request_body_eq. run_async.
  destruct (answer_post net _ _) as [response|t]; run_async; [|done].
  destruct (ok response); run_async; [done|]. by destruct (text response).
Qed.


Lemma completeLinkedInOAuth_run net (code clientId clientSecret redirectUri : string) w :
  completeLinkedInOAuth (fetch_post net) (fetch_get net)
    code clientId clientSecret redirectUri w
  = match exchangeCodeForToken (fetch_post net) code clientId clientSecret redirectUri w with
    | (Returned tokenResponse, w') =>
      fetchLinkedInProfile (fetch_get net) (access_token tokenResponse) w'
    | (Threw t, w') => (Threw t, w')
    end.
Proof. reflexivity. Qed.



(** X10. When the token request fails, [completeLinkedInOAuth] throws
    after that one fetch and never calls the userinfo endpoint: a rejected
    fetch and a body that does not parse are rethrown as they are, and a
    response that is not ok becomes the error "LinkedIn token exchange
    failed: <status> - <body>" (or the rejection of reading the body). *)
Theorem exchange_stops_at_token_failure net
    (code clientId clientSecret redirectUri : string) w :
  let body := token_request_body code clientId clientSecret redirectUri in
  (∀ t, answer_post net LINKEDIN_TOKEN_URL body = Threw t →
        completeLinkedInOAuth (fetch_post net) (fetch_get net)
          code clientId clientSecret redirectUri w
        = (Threw t, invoked w [Fetch LINKEDIN_TOKEN_URL body]))
  ∧ (∀ response,
       answer_post net LINKEDIN_TOKEN_URL body = Returned response →
       (∀ errorText,
          ok response = false → text response = Returned errorText →
          completeLinkedInOAuth (fetch_post net) (fetch_get net)
            code clientId clientSecret redirectUri w
          = (Threw (ThrownError ("LinkedIn token exchange failed: "
                                   +:+ pretty (status response) +:+ " - " +:+ errorText)),
             invoked w [Fetch LINKEDIN_TOKEN_URL body]))
       ∧ (∀ t,
            ok response = false → text response = Threw t →
            completeLinkedInOAuth (fetch_post net) (fetch_get net)
              code clientId clientSecret redirectUri w
            = (Threw t, invoked w [Fetch LINKEDIN_TOKEN_URL body]))
       ∧ (∀ t,
            ok response = true → json response = Threw t →
            completeLinkedInOAuth (fetch_post net) (fetch_get net)
              code clientId clientSecret redirectUri w
            = (Threw t, invoked w [Fetch LINKEDIN_TOKEN_URL body]))).
Proof.
  cbn zeta. rewrite completeLinkedInOAuth_run, exchangeCodeForToken_run.
  split; [by intros t ->|]. intros response ->. split_and!.
  - by intros errorText -> ->.
  - by intros t -> ->.
  - by intros t -> ->.
Qed.


End exchange_properties.

Section action_properties.
Variable verifyApiKey : string → Query (option positive).

Implicit Types (w : World) (net : Network) (env : ProcessEnv).

Ltac run_async :=
  cbv beta iota zeta delta
    [mbind mret Async_bind Async_ret try_catch settle throw emit runQuery
     runMutation transaction invoked] in *;
  cbn [fst snd negb world_db world_events] in *.

(** The action, step by step. *)
Lemma action_run env net now_query now_mutation (s code : string) w :
  completeLinkedInOAuthAction env net now_query now_mutation s code w
  = match validateState now_query s (world_db w) with
    | StateInvalid err =>
      (Returned (CompleteFailure err), invoked w [RunQuery_validateState s])
    | StateValid _ =>
      if negb (truthy_string (LINKEDIN_CLIENT_ID env))
         || negb (truthy_string (LINKEDIN_CLIENT_SECRET env))
         || negb (truthy_string (LINKEDIN_REDIRECT_URI env))
      then (Returned (CompleteFailure "LinkedIn OAuth not configured"),
            invoked w [RunQuery_validateState s])
      else
        match exchange env net s code w with
        | (Returned profile, w1) =>
          match sub profile, name profile with
          | Some linkedinId, Some linkedinName =>
            (Returned
               (completeVerification now_mutation s linkedinId linkedinName
                  (world_db w1)).1,
             {| world_db :=
                  (completeVerification now_mutation s linkedinId linkedinName
                     (world_db w1)).2;
                world_events :=
                  (world_events w1
                   ++ [RunMutation_completeVerification s linkedinId linkedinName])%list |})
          | _, _ => (Threw ArgumentValidationError, w1)
          end
        | (Threw t, w1) =>
          (Returned (CompleteFailure ("LinkedIn OAuth failed: " +:+ message_of t)), w1)
        end
    end.
Proof.
  unfold completeLinkedInOAuthAction, exchange. run_async.
  destruct (validateState now_query s (world_db w)) as [a|err]; run_async; [|done].
  destruct (negb _ || _ || _); run_async; [done|].
  destruct (completeLinkedInOAuth _ _ _ _ _ _ _) as [[profile|t] w1]; run_async.
  - unfold completeVerification_args.
    destruct (sub profile), (name profile); cbn [mbind option_bind]; run_async;
      [|done..].
    by destruct (completeVerification _ _ _ _ _).
  - by destruct t.
Qed.

Lemma not_configured_fails env :
  ¬ configured env →
  negb (truthy_string (LINKEDIN_CLIENT_ID env))
  || negb (truthy_string (LINKEDIN_CLIENT_SECRET env))
  || negb (truthy_string (LINKEDIN_REDIRECT_URI env)) = true.
Proof.
  unfold configured. intros Hnot.
  destruct (truthy_string (LINKEDIN_CLIENT_ID env)); [|done].
  destruct (truthy_string (LINKEDIN_CLIENT_SECRET env)); [|done].
  destruct (truthy_string (LINKEDIN_REDIRECT_URI env)); [|done].
  by destruct Hnot.
Qed.

(** X12. A provider setting that is unset or set to the empty string
    disables the flow. A start then fails and returns the database as it
    was; and the action, when the state is valid, returns "LinkedIn OAuth
    not configured" after the validation alone, with no fetch, no
    completion and the database untouched. *)
Theorem unset_or_empty_setting_disables_the_flow env :
  ¬ configured env →
  (∀ randomValues now apiKey db,
     ∃ err, startVerification verifyApiKey env randomValues now apiKey db
            = (StartFailure err, db))
  ∧ (∀ net now_query now_mutation (s code : string) w a,
       validateState now_query s (world_db w) = StateValid a →
       completeLinkedInOAuthAction env net now_query now_mutation s code w
       = (Returned (CompleteFailure "LinkedIn OAuth not configured"),
          invoked w [RunQuery_validateState s])).
Proof.
  intros Hnot%not_configured_fails. split.
  - intros randomValues now apiKey db. unfold startVerification. run_mutation.
    destruct (verifyApiKey apiKey db) as [a|]; [|by eexists].
    unfold db_get_agent.
    destruct (agents db !! a) as [agent|]; [|by eexists].
    destruct (bool_decide _ && verified agent); [by eexists|].
    rewrite Hnot. by eexists.
  - intros net now_query now_mutation s code w a Hvalid.
    by rewrite action_run, Hvalid, Hnot.
Qed.

Lemma completed_clears_uncompleted (a id : positive) now (l : list VerificationRequest) :
  (∀ r, r ∈ l → uncompleted_of a r → _id r = id) →
  filter (uncompleted_of a)
    ((λ r, if decide (_id r = id) then fields_completedAt now r else r) <$> l) = [].
Proof.
  intros Honly. induction l as [|r l IH]; [done|].
  rewrite fmap_cons, filter_cons.
  rewrite IH by (intros r' Hr'; apply Honly; by right).
  case_decide as Hu; [|done]. exfalso.
  case_decide as Hr; [by destruct Hu|].
  apply Hr, Honly; [left|done].
Qed.

Lemma complete_expired now (s id name : string) db request :
  first_by_state s db = Some request →
  now > expiresAt request →
  completeVerification now s id name db
  = (CompleteFailure "Verification request expired",
     patched (_id request) (fields_error "State token expired") db).
Proof.
  intros Hfirst Hexpired. unfold completeVerification. run_mutation.
  by rewrite Hfirst, bool_decide_eq_true_2.
Qed.

(** X13. The whole flow, when nothing else writes the database between the
    start and the end of the callback. After a successful start at [now]
    whose token no earlier row carried, a callback with that token, whose
    validation and completion both run no later than [now + 15 minutes] and
    whose exchange gives a profile with a string [sub] and a string [name],
    makes the action return success for the starting agent with the
    profile's name; afterwards that agent is verified through LinkedIn with
    the profile's [sub] as its LinkedIn id and has no uncompleted request.
    A second completion with the same token is then answered "Verification
    already completed", with nothing written, when it runs no later than
    [now + 15 minutes] (and the clock of the first completion did not read
    0), and "Verification request expired", with that diagnostic written on
    the request and nothing else, when it runs later. *)
Theorem start_then_callback_verifies_the_agent
    env randomValues now apiKey db url e msg db'
    net now_query now_mutation (code : string) w (profile : LinkedInProfile) w1
    (profile_sub profile_name : string) :
  startVerification verifyApiKey env randomValues now apiKey db
    = (StartSuccess url e msg, db') →
  never_issued (generateOAuthState randomValues) db →
  world_db w = db' →
  (now_query ≤ now + STATE_EXPIRATION_MS)%Z →
  (now_mutation ≤ now + STATE_EXPIRATION_MS)%Z →
  exchange env net (generateOAuthState randomValues) code w = (Returned profile, w1) →
  sub profile = Some profile_sub →
  name profile = Some profile_name →
  ∃ a agent agent' w',
    verifyApiKey apiKey db = Some a
    ∧ agents db !! a = Some agent
    ∧ completeLinkedInOAuthAction env net now_query now_mutation
        (generateOAuthState randomValues) code w
      = (Returned (CompleteSuccess a (handle agent) profile_name), w')
    ∧ agents (world_db w') !! a = Some agent'
    ∧ verified agent' = true
    ∧ verificationType agent' = "linkedin"
    ∧ linkedinId agent' = Some profile_sub
    ∧ linkedinName agent' = Some profile_name
    ∧ collect_uncompleted a (world_db w') = []
    ∧ ∀ now' id name,
        (now_mutation ≠ 0 →
         (now' ≤ now + STATE_EXPIRATION_MS)%Z →
         completeVerification now' (generateOAuthState randomValues) id name (world_db w')
         = (CompleteFailure "Verification already completed", world_db w'))
        ∧ (now' > now + STATE_EXPIRATION_MS →
           ∃ request,
             first_by_state (generateOAuthState randomValues) (world_db w') = Some request
             ∧ completeVerification now' (generateOAuthState randomValues) id name
                 (world_db w')
               = (CompleteFailure "Verification request expired",
                  patched (_id request) (fields_error "State token expired")
                    (world_db w'))).
Proof.
  intros Hrun Hfresh Hw Hquery Hmutation Hexchange Hsub Hname.
  pose proof Hrun as Hrun'.
  apply start_success_inv in Hrun'
    as (_ & _ & _ & _ & _ & Hid & Hsecret & Huri & _ & _ & _).
  destruct (started_token_first verifyApiKey _ _ _ _ _ _ _ _ _ Hrun Hfresh)
    as (a & agent & Hkey & Hagents & Hagent & Huncompleted & Hfirst).
  assert (world_db w1 = db') as Hw1.
  { unfold exchange in Hexchange.
    destruct (exchange_only_fetches net code
                (default "" (LINKEDIN_CLIENT_ID env))
                (default "" (LINKEDIN_CLIENT_SECRET env))
                (default "" (LINKEDIN_REDIRECT_URI env))
                (invoked w [RunQuery_validateState (generateOAuthState randomValues)]))
      as (outcome & fetches & Heq & _).
    rewrite Heq in Hexchange. by injection Hexchange as _ <-. }
  set (token := generateOAuthState randomValues) in *.
  set (request := started_request db a randomValues now) in *.
  assert (agents db' !! agentId request = Some agent) as Hagent'
    by (cbn; by rewrite Hagents).
  assert (validateState now_query token db' = StateValid a) as Hvalid.
  { unfold validateState, db_get_agent. rewrite Hfirst, bool_decide_eq_false_2.
    - cbn [completedAt request started_request truthy_number]. by rewrite Hagent'.
    - cbn. lia. }
  pose proof (complete_live now_mutation token profile_sub profile_name db'
                request agent Hfirst) as Hcomplete.
  rewrite action_run, Hw, Hvalid, Hid, Hsecret, Huri, Hexchange, Hsub, Hname, Hw1.
  cbn [negb orb].
  rewrite Hcomplete; [|cbn; lia|done|done]. cbn [fst snd].
  eexists a, agent, (completed_agent agent profile_sub profile_name now_mutation), _.
  assert (first_by_state token
            (patched (_id request) (fields_completedAt now_mutation) db')
          = Some (fields_completedAt now_mutation request)) as Hfirst'.
  { rewrite first_by_state_patched, Hfirst by done. cbn. by rewrite decide_True. }
  split_and!; [done|done|done|apply lookup_insert_eq|..].
  - unfold completed_agent. by case_bool_decide.
  - unfold completed_agent. by case_bool_decide.
  - unfold completed_agent. by case_bool_decide.
  - unfold completed_agent. by case_bool_decide.
  - unfold collect_uncompleted in *.
    cbn [world_db linkedinVerificationRequests patched db_patch_request snd].
    apply completed_clears_uncompleted. intros r Hr Hu.
    assert (r ∈ filter (uncompleted_of a) (linkedinVerificationRequests db')) as Hf
      by (by apply list_elem_of_filter).
    rewrite Huncompleted in Hf. by apply list_elem_of_singleton in Hf as ->.
  - intros now' id name. split.
    + intros Hnz Hnow'.
      apply (complete_already_completed now' token id name _
               (fields_completedAt now_mutation request)); [exact Hfirst'|cbn; lia|].
      cbn. by apply negb_true_iff, Z.eqb_neq.
    + intros Hnow'. exists (fields_completedAt now_mutation request).
      split; [exact Hfirst'|].
      apply complete_expired; [exact Hfirst'|cbn; lia].
Qed.

End action_properties.

(** ** The token and the URL, further *)
Section token_properties.

Lemma charAt_alphabet (n : nat) :
  (n < 62)%nat → charAt chars n = String (alphabet_at n) EmptyString.
Proof.
  intros Hn. destruct (get_in_range chars n) as (c & Hget & _); [by vm_compute|].
  unfold charAt, alphabet_at. by rewrite Hget.
Qed.

Lemma alphabet_at_inj (m n : nat) :
  (m < 62)%nat → (n < 62)%nat → alphabet_at m = alphabet_at n → m = n.
Proof.
  intros Hm Hn Heq.
  assert (forallb (λ m, forallb (λ n,
            implb (Ascii.eqb (alphabet_at m) (alphabet_at n)) (Nat.eqb m n))
            (seq 0 62)) (seq 0 62) = true) as Hall by (by vm_compute).
  rewrite forallb_forall in Hall.
  specialize (Hall m (proj2 (in_seq _ _ _) (conj (Nat.le_0_l m) Hm))).
  rewrite forallb_forall in Hall.
  specialize (Hall n (proj2 (in_seq _ _ _) (conj (Nat.le_0_l n) Hn))).
  rewrite Heq, Ascii.eqb_refl in Hall. by apply Nat.eqb_eq.
Qed.

Lemma append_empty_r (r : string) : r +:+ EmptyString = r.
Proof.
  induction r as [|c r IH]; [done|].
  change (String c (r +:+ EmptyString) = String c r). by rewrite IH.
Qed.

(** The loop, as the list of the characters it appends. *)
Lemma token_characters (randomValues : list byte) (indices : list nat) (result : string) :
  foldl (λ result i,
           result +:+ charAt chars (uint8_at randomValues i `mod` String.length chars)%nat)
        result indices
  = result +:+ string_of_list_ascii
                 ((λ i, alphabet_at (uint8_at randomValues i `mod` 62)%nat) <$> indices).
Proof.
  revert result. induction indices as [|i indices IH]; intros result.
  - cbn. symmetry. apply append_empty_r.
  - cbn [foldl fmap list_fmap string_of_list_ascii]. rewrite IH.
    change (String.length chars) with 62%nat.
    rewrite charAt_alphabet by (apply Nat.mod_upper_bound; lia).
    by rewrite append_assoc.
Qed.

(** X14. The token is the alphabet read at the 32 residues: its character
    at position [i < 32] is the character of the alphabet at index
    [randomValues[i] mod 62]; so two arrays give the same token exactly when
    their bytes agree modulo 62 at each of the 32 positions. *)
Theorem token_is_bytes_modulo_62 (randomValues randomValues' : list byte) :
  (∀ i, (i < 32)%nat →
        String.get i (generateOAuthState randomValues)
        = String.get (uint8_at randomValues i `mod` 62)%nat chars)
  ∧ (generateOAuthState randomValues = generateOAuthState randomValues'
     ↔ ∀ i, (i < 32)%nat →
            (uint8_at randomValues i `mod` 62 = uint8_at randomValues' i `mod` 62)%nat).
Proof.
  assert (∀ rv, generateOAuthState rv
                = string_of_list_ascii
                    ((λ i, alphabet_at (uint8_at rv i `mod` 62)%nat) <$> seq 0 32)) as Htoken.
  { intros rv. unfold generateOAuthState. by rewrite token_characters. }
  assert (∀ (l : list ascii) i, String.get i (string_of_list_ascii l) = l !! i) as Hget.
  { induction l as [|c l IH]; intros [|i]; cbn; first [done|apply IH]. }
  split.
  - intros i Hi. rewrite Htoken, Hget, list_lookup_fmap, lookup_seq_lt by done.
    cbn [fmap option_fmap option_map Nat.add].
    destruct (get_in_range chars (uint8_at randomValues i `mod` 62)%nat)
      as (c & Hc & _); [apply Nat.mod_upper_bound; by vm_compute|].
    unfold alphabet_at. by rewrite Hc.
  - rewrite !Htoken. split.
    + intros Heq i Hi.
      apply (f_equal list_ascii_of_string) in Heq.
      rewrite !list_ascii_of_string_of_list_ascii in Heq.
      apply (f_equal (λ l, l !! i)) in Heq.
      rewrite !list_lookup_fmap, lookup_seq_lt in Heq by done.
      cbn [fmap option_fmap option_map Nat.add] in Heq.
      apply (inj Some) in Heq.
      apply alphabet_at_inj in Heq; [done|apply Nat.mod_upper_bound; lia..].
    + intros Hres. f_equal. apply list_fmap_ext. intros k i Hk.
      apply lookup_seq in Hk as [-> Hk]. cbn [Nat.add]. by rewrite Hres.
Qed.

Lemma all_bytes_complete (b : byte) : b ∈ all_bytes.
Proof.
  unfold all_bytes. apply list_elem_of_omap. exists (Byte.to_nat b). split.
  - apply elem_of_seq. pose proof (Byte.to_nat_bounded b). lia.
  - apply Byte.of_to_nat.
Qed.

(** X15. The token characters are not equally likely: of the 256 values
    of a byte, five give each of the first eight characters of the alphabet
    ([A] to [H]) and four give each of the other 54. *)
Theorem token_character_preimages (k : nat) :
  (∀ b : byte, b ∈ all_bytes)
  ∧ NoDup all_bytes
  ∧ ((k < 62)%nat →
     length (filter (λ b, charAt chars (N.to_nat (Byte.to_N b) `mod` String.length chars)%nat
                          = charAt chars k) all_bytes)
     = if Nat.ltb k 8 then 5%nat else 4%nat).
Proof.
  split; [apply all_bytes_complete|]. split.
  - apply (NoDup_fmap_1 Byte.to_nat).
    replace (Byte.to_nat <$> all_bytes) with (seq 0 256) by (by vm_compute).
    apply NoDup_seq.
  - intros Hk.
    assert (forallb (λ k,
              Nat.eqb
                (length (filter (λ b, charAt chars (N.to_nat (Byte.to_N b)
                                                     `mod` String.length chars)%nat
                                      = charAt chars k) all_bytes))
                (if Nat.ltb k 8 then 5 else 4)%nat) (seq 0 62) = true) as Hall
      by (by vm_compute).
    rewrite forallb_forall in Hall.
    apply Nat.eqb_eq, Hall, in_seq. lia.
Qed.

Lemma occurrences_append (x : ascii) (a b : string) :
  occurrences x (a +:+ b) = (occurrences x a + occurrences x b)%nat.
Proof.
  unfold occurrences. by rewrite list_ascii_of_append, filter_app, length_app.
Qed.

Lemma urlencode_byte_no_delimiter (c : ascii) :
  forallb (λ x, Nat.eqb (occurrences x (urlencode_byte c)) 0) url_delimiters = true.
Proof. destruct c as [[] [] [] [] [] [] [] []]; by vm_compute. Qed.

Lemma urlencode_no_delimiter (x : ascii) (s : string) :
  x ∈ url_delimiters → occurrences x (urlencode s) = 0%nat.
Proof.
  intros Hx. induction s as [|c s IH]; [done|].
  cbn [urlencode]. rewrite occurrences_append, IH.
  pose proof (urlencode_byte_no_delimiter c) as Hc.
  rewrite forallb_forall in Hc.
  specialize (Hc x (proj1 (list_elem_of_In _ _) Hx)).
  apply Nat.eqb_eq in Hc. lia.
Qed.

(** X16. Whatever the client id, the redirect URI and the state contain,
    the authorization URL has exactly one [?], four [&] and five [=], and
    neither a [#] nor a space: the arguments cannot add, end or split a
    parameter of the query. *)
Theorem authorization_url_has_five_parameters (clientId redirectUri state : string) :
  occurrences "?" (buildLinkedInAuthUrl clientId redirectUri state) = 1%nat
  ∧ occurrences "&" (buildLinkedInAuthUrl clientId redirectUri state) = 4%nat
  ∧ occurrences "=" (buildLinkedInAuthUrl clientId redirectUri state) = 5%nat
  ∧ occurrences "#" (buildLinkedInAuthUrl clientId redirectUri state) = 0%nat
  ∧ occurrences " " (buildLinkedInAuthUrl clientId redirectUri state) = 0%nat.
Proof.
  rewrite buildLinkedInAuthUrl_shape.
  assert (∀ x, x ∈ url_delimiters →
            occurrences x
              (LINKEDIN_AUTH_URL +:+ "?response_type=code&client_id=" +:+ urlencode clientId
               +:+ "&redirect_uri=" +:+ urlencode redirectUri
               +:+ "&state=" +:+ urlencode state
               +:+ "&scope=openid+profile+email")
            = (occurrences x LINKEDIN_AUTH_URL
               + occurrences x "?response_type=code&client_id="
               + occurrences x "&redirect_uri=" + occurrences x "&state="
               + occurrences x "&scope=openid+profile+email")%nat) as Hcount.
  { intros x Hx. rewrite !occurrences_append, !urlencode_no_delimiter by done. lia. }
  split_and!; (rewrite Hcount; [by vm_compute|]); unfold url_delimiters;
    repeat first [by left | right].
Qed.

End token_properties.

(** ** The agent directory page *)
Section directory_page.
Context {A : Type}.

Implicit Types (st : agentsPage.State A) (events : list (agentsPage.Action A)).

Lemma load_more_when_loading st (agentsList : option (agentsPage.ListResult A)) :
  agentsPage.isLoadingMore st = true → agentsPage.handleLoadMore agentsList st = st.
Proof.
  intros Hloading. unfold agentsPage.handleLoadMore. rewrite Hloading. cbn.
  by rewrite andb_false_r.
Qed.

Lemma step_keeps_loading st (e : agentsPage.Action A) :
  agentsPage.isLoadingMore st = true →
  agentsPage.isLoadingMore (agentsPage.step st e) = true.
Proof.
  intros Hloading. destruct e as [value|checked|agentsList]; cbn; [done..|].
  by rewrite load_more_when_loading.
Qed.

(** X17. [isLoadingMore] is never set back to false: once a Load More has
    taken effect, every later Load More leaves the state as it is. So,
    whatever the user does from the initial state, the pages kept in
    [allAgents] are none or the agents of a single list result. *)
Theorem load_more_takes_effect_once events :
  (∀ st, agentsPage.isLoadingMore st = true →
         agentsPage.isLoadingMore (agentsPage.run events st) = true)
  ∧ (∀ st agentsList,
       agentsPage.isLoadingMore st = true →
       agentsPage.handleLoadMore agentsList st = st)
  ∧ (agentsPage.allAgents (agentsPage.run events agentsPage.initial) = []
     ∨ ∃ result,
         agentsPage.LoadMore (Some result) ∈ events
         ∧ agentsPage.allAgents (agentsPage.run events agentsPage.initial)
           = agentsPage.agents result).
Proof.
  split; [|split; [intros st agentsList; apply load_more_when_loading|]].
  - induction events as [|e events IH]; intros st Hloading; [done|].
    cbn. by apply IH, step_keeps_loading.
  - assert (agentsPage.allAgents (agentsPage.run events agentsPage.initial) = []
            ∨ agentsPage.isLoadingMore (agentsPage.run events agentsPage.initial) = true
              ∧ ∃ result,
                  agentsPage.LoadMore (Some result) ∈ events
                  ∧ agentsPage.allAgents (agentsPage.run events agentsPage.initial)
                    = agentsPage.agents result) as [Hnone|[_ Hone]];
      [|by left|by right].
    induction events as [|e events IH] using rev_ind; [by left|].
    unfold agentsPage.run in *. rewrite foldl_app. cbn [foldl].
    set (st := foldl agentsPage.step agentsPage.initial events) in *.
    destruct e as [value|checked|agentsList]; cbn [agentsPage.step];
      [by left|by left|].
    destruct IH as [Hnone|[Hloading (result & Hin & Hall)]].
    + unfold agentsPage.handleLoadMore.
      destruct (_ && _ && _) eqn:Hcond; [|by left].
      destruct agentsList as [result|]; [|by left].
      right. split; [done|]. exists result. cbn. rewrite Hnone. split; [|done].
      apply elem_of_app. right. left.
    + rewrite load_more_when_loading by done. right. split; [done|].
      exists result. split; [|done]. apply elem_of_app. by left.
Qed.

(** X18. Load More on a fresh pagination state (no cursor, no kept page,
    fewer than two characters typed, not loading) whose list result has a
    next cursor: the first page is what was displayed before; it stays
    displayed while the next page loads; and when the next page arrives the
    two pages are displayed one after the other. *)
Theorem load_more_displays_both_pages st
    (page1 page2 : agentsPage.ListResult A)
    (searchResults : option (agentsPage.ListResult A)) :
  agentsPage.cursor st = None →
  agentsPage.allAgents st = [] →
  (length (agentsPage.searchQuery st) < 2)%nat →
  agentsPage.isLoadingMore st = false →
  truthy_string (agentsPage.nextCursor page1) = true →
  agentsPage.displayedAgents st (Some page1) searchResults
  = Some (agentsPage.agents page1)
  ∧ agentsPage.cursor (agentsPage.handleLoadMore (Some page1) st)
    = agentsPage.nextCursor page1
  ∧ agentsPage.displayedAgents (agentsPage.handleLoadMore (Some page1) st)
      None searchResults
    = Some (agentsPage.agents page1)
  ∧ agentsPage.displayedAgents (agentsPage.handleLoadMore (Some page1) st)
      (Some page2) searchResults
    = Some (agentsPage.agents page1 ++ agentsPage.agents page2)%list.
Proof.
  intros Hcursor Hall Hquery Hloading Hnext.
  unfold agentsPage.displayedAgents, agentsPage.currentAgents, agentsPage.handleLoadMore.
  cbn [mbind option_bind].
  rewrite Hnext, Hloading, Hcursor, Hall, (proj2 (Nat.ltb_lt _ _) Hquery).
  cbn [andb negb truthy_string agentsPage.cursor agentsPage.searchQuery
       agentsPage.allAgents app].
  rewrite Hnext, (proj2 (Nat.ltb_lt _ _) Hquery), (proj2 (Nat.leb_gt _ _) Hquery).
  cbn. by rewrite app_nil_r.
Qed.

End directory_page.

(** ** Worked instances of the further properties *)

(** Agent 2 starts, its completed request is presented, agent 1 completes
    and starts again, on [fixtures.db_open]. *)
Lemma flow_keeps_invariants_witness :
  ids_fresh
    (run_calls fixtures.two_keys
       [ CallStart {| call_env := fixtures.env_ok; call_random := fixtures.bytes32;
                      call_now := 9500; call_apiKey := "key-2" |};
         CallComplete 9600 "stateB" "abc123" "Jane Doe";
         CallComplete 9700 "stateA" "abc123" "Jane Doe";
         CallStart {| call_env := fixtures.env_ok; call_random := fixtures.bytes32;
                      call_now := 9800; call_apiKey := "key-1" |} ]
       fixtures.db_open).
Proof.
  apply (proj2 (flow_keeps_invariants fixtures.two_keys _ fixtures.db_open)).
  split.
  - apply (NoDup_fmap_1 Pos.to_nat). by vm_compute; repeat constructor;
      rewrite ?list_elem_of_In; cbn; lia.
  - repeat constructor; cbn; lia.
Defined.

(** How agent 1's start of [fixtures.db_started] ran. *)
Lemma fixture_started :
  startVerification fixtures.two_keys fixtures.env_ok fixtures.bytes32 9000 "key-1"
    fixtures.db_open
  = (StartSuccess fixtures.url_started 900 fixtures.start_message, fixtures.db_started).
Proof. by vm_compute. Qed.

Lemma fixture_token_fresh : never_issued fixtures.token32 fixtures.db_open.
Proof. unfold never_issued. cbn. repeat constructor; by vm_compute. Qed.

(** The token of agent 1's start validates at the expiry instant 909000. *)
Lemma started_token_validates_witness :
  validateState 909000 fixtures.token32 fixtures.db_started = StateValid 1
  ∧ validateState 909001 fixtures.token32 fixtures.db_started
    = StateInvalid "Verification request expired".
Proof.
  destruct (started_token_validates fixtures.two_keys _ _ _ _ _ _ _ _ _
              fixture_started fixture_token_fresh)
    as (a & agent & [= <-] & _ & _ & Hnow).
  split.
  - apply (proj1 (Hnow 909000)). unfold STATE_EXPIRATION_MS. lia.
  - apply (proj2 (Hnow 909001)). unfold STATE_EXPIRATION_MS. lia.
Defined.

(** Agent 1's earlier token [stateA] is gone after its start. *)
Lemma start_invalidates_previous_tokens_witness :
  validateState 9100 "stateA" fixtures.db_started
  = StateInvalid "Invalid or expired state token".
Proof.
  refine (proj1 (proj2 (start_invalidates_previous_tokens fixtures.two_keys _ _ _ _ _ _ _ _ _
                   1%positive "stateA" fixture_started eq_refl _ _) 9100 "" "")).
  - by vm_compute.
  - intros r Hr Hs. cbn in Hr.
    repeat (apply elem_of_cons in Hr as [->|Hr]; [by vm_compute in Hs; try done|]).
    by apply elem_of_nil in Hr.
Defined.

(** Agent 1 completes [stateA] on [fixtures.db_open] and asks again. *)
Lemma completed_agent_is_verified_and_cannot_restart_witness :
  startVerification fixtures.two_keys fixtures.env_ok fixtures.bytes32 9300 "key-1"
    (completeVerification 9000 "stateA" "abc123" "Jane Doe" fixtures.db_open).2
  = (StartFailure "Agent is already LinkedIn verified",
     (completeVerification 9000 "stateA" "abc123" "Jane Doe" fixtures.db_open).2).
Proof.
  refine (proj2 (completed_agent_is_verified_and_cannot_restart fixtures.two_keys
                   9000 "stateA" "abc123" "Jane Doe" fixtures.db_open
                   1%positive "claw" "Jane Doe" _ "key-1" _ eq_refl) _ _ _).
  by vm_compute.
Defined.

(** Agent 1's status after its start: pending just before 909000, not at
    909000. *)
Lemma started_flow_is_pending_until_expiry_witness :
  pending (getVerificationStatus fixtures.two_keys 908999 "key-1" fixtures.db_started)
  = true
  ∧ getVerificationStatus fixtures.two_keys 909000 "key-1" fixtures.db_started
    = status_none.
Proof.
  destruct (started_flow_is_pending_until_expiry fixtures.two_keys _ _ _ _ _ _ _ _ _
              fixture_started) as (a & [= <-] & Hstatus).
  destruct (Hstatus "key-1" 908999 eq_refl) as [Hbefore _].
  destruct (Hstatus "key-1" 909000 eq_refl) as [_ Hat].
  split.
  - rewrite Hbefore; [done|]. unfold STATE_EXPIRATION_MS. lia.
  - apply Hat. unfold STATE_EXPIRATION_MS. lia.
Defined.


(** A token endpoint that answers 401, and a provider that is down. *)
Lemma exchange_stops_at_token_failure_witness :
  (completeLinkedInOAuth (fetch_post fixtures.net_401) (fetch_get fixtures.net_401)
     "code-1" "client-1" "s3cret" "https://linkclaws.example/cb" fixtures.world_open).1
  = Threw (ThrownError "LinkedIn token exchange failed: 401 - invalid_client")
  ∧ (completeLinkedInOAuth (fetch_post fixtures.net_down) (fetch_get fixtures.net_down)
       "code-1" "client-1" "s3cret" "https://linkclaws.example/cb" fixtures.world_open).1
    = Threw (ThrownError "fetch failed").
Proof.
  split.
  - rewrite (proj1 (proj2 (exchange_stops_at_token_failure fixtures.net_401
               "code-1" "client-1" "s3cret" "https://linkclaws.example/cb"
               fixtures.world_open) _ eq_refl) "invalid_client" eq_refl eq_refl).
    reflexivity.
  - rewrite (proj1 (exchange_stops_at_token_failure fixtures.net_down
               "code-1" "client-1" "s3cret" "https://linkclaws.example/cb"
               fixtures.world_open) (ThrownError "fetch failed") eq_refl).
    reflexivity.
Defined.


(** An empty client secret: the start fails and the callback stops after
    the validation. *)
Lemma unset_or_empty_setting_disables_the_flow_witness :
  (startVerification fixtures.two_keys fixtures.env_empty_secret fixtures.bytes32
     9000 "key-1" fixtures.db_open).2 = fixtures.db_open
  ∧ completeLinkedInOAuthAction fixtures.env_empty_secret fixtures.net_ok 9000 9100
      "stateA" "code-1" fixtures.world_open
    = (Returned (CompleteFailure "LinkedIn OAuth not configured"),
       invoked fixtures.world_open [RunQuery_validateState "stateA"]).
Proof.
  assert (¬ configured fixtures.env_empty_secret) as Hnot
    by (intros (_ & Hsecret & _); discriminate Hsecret).
  destruct (unset_or_empty_setting_disables_the_flow fixtures.two_keys
              fixtures.env_empty_secret Hnot) as [Hstart Haction].
  split.
  - destruct (Hstart fixtures.bytes32 9000 "key-1" fixtures.db_open) as [err ->]. done.
  - by apply (Haction fixtures.net_ok 9000 9100 "stateA" "code-1" fixtures.world_open
                1%positive).
Defined.

(** Agent 1 starts on [fixtures.db_open] and the callback arrives at 9400
    with a provider that answers with Jane Doe's profile. *)
Lemma start_then_callback_verifies_the_agent_witness :
  (completeLinkedInOAuthAction fixtures.env_ok fixtures.net_ok 9400 9500
     fixtures.token32 "code-1" fixtures.world_started).1
  = Returned (CompleteSuccess 1 "claw" "Jane Doe").
Proof.
  destruct (start_then_callback_verifies_the_agent fixtures.two_keys
              _ _ _ _ _ _ _ _ _ fixtures.net_ok 9400 9500 "code-1"
              fixtures.world_started fixtures.profile_jane
              (exchange fixtures.env_ok fixtures.net_ok fixtures.token32 "code-1"
                 fixtures.world_started).2
              "abc123" "Jane Doe"
              fixture_started fixture_token_fresh eq_refl)
    as (a & agent & agent' & w' & [= <-] & [= <-] & Hrun & _).
  - unfold STATE_EXPIRATION_MS. lia.
  - unfold STATE_EXPIRATION_MS. lia.
  - by vm_compute.
  - reflexivity.
  - reflexivity.
  - unfold fixtures.token32. by rewrite Hrun.
Defined.

(** Two pages of a directory of numbered agents. *)
Lemma load_more_displays_both_pages_witness :
  agentsPage.displayedAgents
    (agentsPage.handleLoadMore
       (Some {| agentsPage.agents := [1%nat; 2%nat];
                agentsPage.nextCursor := Some "cursor-2" |})
       agentsPage.initial)
    (Some {| agentsPage.agents := [3%nat]; agentsPage.nextCursor := None |})
    None
  = Some [1%nat; 2%nat; 3%nat].
Proof.
  refine (proj2 (proj2 (proj2
    (load_more_displays_both_pages agentsPage.initial
       {| agentsPage.agents := [1%nat; 2%nat]; agentsPage.nextCursor := Some "cursor-2" |}
       {| agentsPage.agents := [3%nat]; agentsPage.nextCursor := None |}
       None eq_refl eq_refl _ eq_refl eq_refl)))).
  cbn. lia.
Defined.
